(** * Streaming transcription client of [web/app/page.tsx]

    A shallow embedding of the [HttpStreamingTranscription] component:
    the host primitives it calls ([TextDecoder], [String.prototype.split],
    [String.prototype.trim], [JSON.parse]), the body of
    [processAudioChunks], [startRecording] and [stopRecording], and the
    event loop that interleaves them.  JavaScript strings are sequences of
    UTF-16 code units, response reads are byte arrays. *)

From Stdlib Require Import NArith ZArith List String Ascii Strings.Byte Bool Lia.
From Stdlib Require Import DecimalString.
From stdpp Require Import gmap.
Import ListNotations.

#[local] Set Warnings "-register-all".

Local Open Scope N_scope.

(** ** JavaScript values *)

(** A JavaScript string: its UTF-16 code units. *)
Abbreviation jsstring := (list N).

(** The code units of an ASCII literal of the source. *)
Definition units (s : string) : jsstring :=
  map N_of_ascii (list_ascii_of_string s).

(** The values [JSON.parse] can return, with [undefined] for absent
    properties.  A number keeps its literal as sign, decimal mantissa and
    power of ten; the component only ever tests a number for truthiness.
    An object keeps its members in source order, duplicates included. *)
Inductive jsval : Type :=
| JUndefined
| JNull
| JBool (b : bool)
| JNum (neg : bool) (mant : N) (exp10 : Z)
| JStr (s : jsstring)
| JArr (elems : list jsval)
| JObj (members : list (jsstring * jsval)).

(** A decimal [mant * 10^exp10] is read as the double zero when it is zero
    or does not exceed half the least positive double, [2^-1075]. *)
Definition reads_as_zero (mant : N) (exp10 : Z) : bool :=
  (mant =? 0) ||
  ((exp10 <? 0)%Z && (Z.of_N mant * 2 ^ 1075 <=? 10 ^ (- exp10))%Z).

(** [ToBoolean] of ECMAScript. *)
Definition ToBoolean (v : jsval) : bool :=
  match v with
  | JUndefined | JNull => false
  | JBool b => b
  | JNum _ m e => negb (reads_as_zero m e)
  | JStr s => negb (bool_decide (s = []))
  | JArr _ | JObj _ => true
  end.

(** The own property named [k]: of duplicate members the last one wins,
    as in [JSON.parse]. *)
Fixpoint own (k : jsstring) (ms : list (jsstring * jsval)) : option jsval :=
  match ms with
  | [] => None
  | (k', v) :: rest =>
      match own k rest with
      | Some later => Some later
      | None => if bool_decide (k' = k) then Some v else None
      end
  end.

(** Property read [v.k] for the names the component reads ([status],
    [message], [result], [text]), none of which is defined on a built-in
    prototype: own members of an object, [undefined] on other values, and a
    [TypeError] ([None]) on [null] and [undefined]. *)
Definition Get (v : jsval) (k : jsstring) : option jsval :=
  match v with
  | JUndefined | JNull => None
  | JObj ms => Some (default JUndefined (own k ms))
  | _ => Some JUndefined
  end.

(** [v === "lit"] for a string literal of the source. *)
Definition strict_eq_lit (v : jsval) (lit : string) : bool :=
  match v with
  | JStr s => bool_decide (s = units lit)
  | _ => false
  end.

(** ** [TextDecoder] (UTF-8, streaming) *)

Module TextDecoder.

(** The state a UTF-8 decoder keeps between [decode(_, {stream: true})]
    calls (WHATWG Encoding, 4.1 and 9.1.1). *)
Record t : Type := mk {
  code_point : N;
  bytes_seen : N;
  bytes_needed : N;
  lower_boundary : N;
  upper_boundary : N;
  bom_seen : bool
}.

Definition fresh : t := mk 0 0 0 0x80 0xBF false.

Definition reset (d : t) : t := mk 0 0 0 0x80 0xBF (bom_seen d).

Definition between (lo b hi : N) : bool := (lo <=? b) && (b <=? hi).

(** A byte arriving when no sequence is open. *)
Definition lead (d : t) (b : N) : list N * t :=
  if b <=? 0x7F then ([b], d)
  else if between 0xC2 b 0xDF then
    ([], mk (N.land b 0x1F) 0 1 0x80 0xBF (bom_seen d))
  else if between 0xE0 b 0xEF then
    ([], mk (N.land b 0xF) 0 2
            (if b =? 0xE0 then 0xA0 else 0x80)
            (if b =? 0xED then 0x9F else 0xBF) (bom_seen d))
  else if between 0xF0 b 0xF4 then
    ([], mk (N.land b 0x7) 0 3
            (if b =? 0xF0 then 0x90 else 0x80)
            (if b =? 0xF4 then 0x8F else 0xBF) (bom_seen d))
  else ([0xFFFD], d).

(** The decoder's handler on one byte: the code points it emits and the
    next state.  A byte outside the expected range ends the open sequence
    with U+FFFD and is then handled again as a leading byte. *)
Definition handler (d : t) (b : N) : list N * t :=
  if bytes_needed d =? 0 then lead d b
  else if negb (between (lower_boundary d) b (upper_boundary d)) then
    let '(out, d') := lead (reset d) b in (0xFFFD :: out, d')
  else
    let cp := N.lor (N.shiftl (code_point d) 6) (N.land b 0x3F) in
    if bytes_seen d + 1 =? bytes_needed d then ([cp], reset d)
    else ([], mk cp (bytes_seen d + 1) (bytes_needed d) 0x80 0xBF (bom_seen d)).

Fixpoint run (d : t) (bs : list byte) : list N * t :=
  match bs with
  | [] => ([], d)
  | b :: rest =>
      let '(out, d1) := handler d (Byte.to_N b) in
      let '(outs, d2) := run d1 rest in
      (out ++ outs, d2)
  end.

(** UTF-16 code units of a code point. *)
Definition utf16 (cp : N) : jsstring :=
  if cp <=? 0xFFFF then [cp]
  else [0xD800 + N.shiftr (cp - 0x10000) 10;
        0xDC00 + N.land (cp - 0x10000) 0x3FF].

(** Serialisation of the emitted code points: the first one of the
    stream is dropped when it is the byte order mark. *)
Definition serialize (seen : bool) (cps : list N) : jsstring * bool :=
  match cps with
  | [] => ([], seen)
  | cp :: rest =>
      if negb seen && (cp =? 0xFEFF) then (flat_map utf16 rest, true)
      else (flat_map utf16 cps, true)
  end.

Definition with_bom_seen (seen : bool) (d : t) : t :=
  mk (code_point d) (bytes_seen d) (bytes_needed d)
     (lower_boundary d) (upper_boundary d) seen.

(** [decoder.decode(value, { stream: true })]: the text produced and the
    decoder afterwards; an unfinished sequence stays in the state. *)
Definition decode (d : t) (value : list byte) : jsstring * t :=
  let '(cps, d') := run d value in
  let '(text, seen) := serialize (bom_seen d') cps in
  (text, with_bom_seen seen d').

(** The boundaries of an open sequence are continuation bytes. *)
Definition well_formed (d : t) : Prop := 0x80 <= lower_boundary d.

End TextDecoder.

(** ** String primitives *)

(** [s.split("\n")]: the pieces between line feeds; the empty string
    gives one empty piece. *)
Fixpoint split_newline (s : jsstring) : list jsstring :=
  match s with
  | [] => [[]]
  | c :: rest =>
      if c =? 0x0A then [] :: split_newline rest
      else match split_newline rest with
           | piece :: pieces => (c :: piece) :: pieces
           | [] => [[c]]
           end
  end.

(** White space and line terminators of ECMAScript, as [trim] strips. *)
Definition is_white_space (c : N) : bool :=
  TextDecoder.between 0x09 c 0x0D || (c =? 0x20) || (c =? 0xA0) ||
  (c =? 0x1680) || TextDecoder.between 0x2000 c 0x200A ||
  (c =? 0x2028) || (c =? 0x2029) || (c =? 0x202F) || (c =? 0x205F) ||
  (c =? 0x3000) || (c =? 0xFEFF).

Fixpoint trim_start (s : jsstring) : jsstring :=
  match s with
  | c :: rest => if is_white_space c then trim_start rest else s
  | [] => []
  end.

(** [s.trim()]. *)
Definition trim (s : jsstring) : jsstring :=
  rev (trim_start (rev (trim_start s))).

(** ** [JSON.parse] *)

Module JSON.

Inductive token : Type :=
| TLBrace | TRBrace | TLBracket | TRBracket | TColon | TComma
| TString (s : jsstring)
| TNumber (neg : bool) (mant : N) (exp10 : Z)
| TTrue | TFalse | TNull.

(** Where the scanner is inside a number literal: an optional minus, then
    either 0 or a nonzero digit and further digits, then optionally a point
    and digits, then optionally e or E, a sign and digits.  [mant] holds
    the digits read so far, [frac] counts those after the point. *)
Inductive number_state : Type :=
| NMinus
| NZero (neg : bool)
| NInt (neg : bool) (mant : N)
| NPoint (neg : bool) (mant : N)
| NFrac (neg : bool) (mant : N) (frac : Z)
| NE (neg : bool) (mant : N) (frac : Z)
| NESign (neg : bool) (mant : N) (frac : Z) (eneg : bool)
| NExp (neg : bool) (mant : N) (frac : Z) (eneg : bool) (e : Z).

Inductive scan_state : Type :=
| SStart
| SString (acc : jsstring)
| SEscape (acc : jsstring)
| SUnicode (acc : jsstring) (todo : nat) (value : N)
| SWord (rest : jsstring) (tok : token)
| SNumber (n : number_state).

Definition is_digit (c : N) : bool := TextDecoder.between 0x30 c 0x39.

Definition digit (c : N) : N := c - 0x30.

Definition hex_digit (c : N) : option N :=
  if is_digit c then Some (c - 0x30)
  else if TextDecoder.between 0x41 c 0x46 then Some (c - 0x41 + 10)
  else if TextDecoder.between 0x61 c 0x66 then Some (c - 0x61 + 10)
  else None.

(** The token of a literal that may end here, if it may. *)
Definition number_token (n : number_state) : option token :=
  match n with
  | NZero neg => Some (TNumber neg 0 0)
  | NInt neg m => Some (TNumber neg m 0)
  | NFrac neg m f => Some (TNumber neg m (- f))
  | NExp neg m f eneg e => Some (TNumber neg m ((if eneg then - e else e) - f))
  | NMinus | NPoint _ _ | NE _ _ _ | NESign _ _ _ _ => None
  end.

(** The literal extended by [c], if [c] can extend it. *)
Definition number_step (n : number_state) (c : N) : option number_state :=
  let exponent neg m f :=
    if (c =? 0x65) || (c =? 0x45) then Some (NE neg m f) else None in
  let point_or_exponent neg m :=
    if c =? 0x2E then Some (NPoint neg m) else exponent neg m 0%Z in
  match n with
  | NMinus =>
      if c =? 0x30 then Some (NZero true)
      else if is_digit c then Some (NInt true (digit c))
      else None
  | NZero neg => point_or_exponent neg 0
  | NInt neg m =>
      if is_digit c then Some (NInt neg (10 * m + digit c))
      else point_or_exponent neg m
  | NPoint neg m =>
      if is_digit c then Some (NFrac neg (10 * m + digit c) 1) else None
  | NFrac neg m f =>
      if is_digit c then Some (NFrac neg (10 * m + digit c) (f + 1))
      else exponent neg m f
  | NE neg m f =>
      if c =? 0x2B then Some (NESign neg m f false)
      else if c =? 0x2D then Some (NESign neg m f true)
      else if is_digit c then Some (NExp neg m f false (Z.of_N (digit c)))
      else None
  | NESign neg m f eneg =>
      if is_digit c then Some (NExp neg m f eneg (Z.of_N (digit c)))
      else None
  | NExp neg m f eneg e =>
      if is_digit c then Some (NExp neg m f eneg (10 * e + Z.of_N (digit c)))
      else None
  end.

(** A code unit met between tokens. *)
Definition scan_start (c : N) : option (list token * scan_state) :=
  if (c =? 0x20) || (c =? 0x09) || (c =? 0x0A) || (c =? 0x0D)
  then Some ([], SStart)
  else if c =? 0x7B then Some ([TLBrace], SStart)
  else if c =? 0x7D then Some ([TRBrace], SStart)
  else if c =? 0x5B then Some ([TLBracket], SStart)
  else if c =? 0x5D then Some ([TRBracket], SStart)
  else if c =? 0x3A then Some ([TColon], SStart)
  else if c =? 0x2C then Some ([TComma], SStart)
  else if c =? 0x22 then Some ([], SString [])
  else if c =? 0x2D then Some ([], SNumber NMinus)
  else if c =? 0x30 then Some ([], SNumber (NZero false))
  else if is_digit c then Some ([], SNumber (NInt false (digit c)))
  else if c =? 0x74 then Some ([], SWord (units "rue") TTrue)
  else if c =? 0x66 then Some ([], SWord (units "alse") TFalse)
  else if c =? 0x6E then Some ([], SWord (units "ull") TNull)
  else None.

(** The character an escape [\c] stands for. *)
Definition escape (c : N) : option N :=
  if c =? 0x22 then Some 0x22
  else if c =? 0x5C then Some 0x5C
  else if c =? 0x2F then Some 0x2F
  else if c =? 0x62 then Some 0x08
  else if c =? 0x66 then Some 0x0C
  else if c =? 0x6E then Some 0x0A
  else if c =? 0x72 then Some 0x0D
  else if c =? 0x74 then Some 0x09
  else None.

(** One step of the scanner: the tokens completed by [c] and the next
    state, or [None] on a [SyntaxError].  String accumulators are kept
    reversed. *)
Definition scan_step (st : scan_state) (c : N)
  : option (list token * scan_state) :=
  match st with
  | SStart => scan_start c
  | SString acc =>
      if c =? 0x22 then Some ([TString (rev acc)], SStart)
      else if c =? 0x5C then Some ([], SEscape acc)
      else if c <? 0x20 then None
      else Some ([], SString (c :: acc))
  | SEscape acc =>
      if c =? 0x75 then Some ([], SUnicode acc 4 0)
      else match escape c with
           | Some e => Some ([], SString (e :: acc))
           | None => None
           end
  | SUnicode acc todo value =>
      match hex_digit c, todo with
      | Some h, 1%nat => Some ([], SString ((16 * value + h) :: acc))
      | Some h, S todo' => Some ([], SUnicode acc todo' (16 * value + h))
      | _, _ => None
      end
  | SWord rest tok =>
      match rest with
      | [x] => if c =? x then Some ([tok], SStart) else None
      | x :: rest' => if c =? x then Some ([], SWord rest' tok) else None
      | [] => None
      end
  | SNumber n =>
      match number_step n c with
      | Some n' => Some ([], SNumber n')
      | None =>
          match number_token n, scan_start c with
          | Some tok, Some (toks, st') => Some (tok :: toks, st')
          | _, _ => None
          end
      end
  end.

Fixpoint scan (st : scan_state) (s : jsstring) : option (list token) :=
  match s with
  | [] =>
      match st with
      | SStart => Some []
      | SNumber n => option_map (fun tok => [tok]) (number_token n)
      | _ => None
      end
  | c :: rest =>
      match scan_step st c with
      | Some (toks, st') => option_map (app toks) (scan st' rest)
      | None => None
      end
  end.

(** A container under construction; members and elements are kept
    reversed, [key] is the member name awaiting its value. *)
Inductive frame : Type :=
| FArray (acc : list jsval)
| FObject (acc : list (jsstring * jsval)) (key : option jsstring).

Inductive expect : Type :=
| EValue          (* a value *)
| EFirstElement   (* after [: a value or ] *)
| EFirstMember    (* after {: a member name or } *)
| EMember         (* after , in an object: a member name *)
| EColon          (* after a member name *)
| ENext           (* after a value in a container: , or the closer *)
| EEnd (v : jsval). (* the text's value is complete *)

(** A finished value goes into the innermost open container, or is the
    result. *)
Definition finish (v : jsval) (stack : list frame)
  : option (expect * list frame) :=
  match stack with
  | [] => Some (EEnd v, [])
  | FArray acc :: below => Some (ENext, FArray (v :: acc) :: below)
  | FObject acc (Some k) :: below =>
      Some (ENext, FObject ((k, v) :: acc) None :: below)
  | FObject _ None :: _ => None
  end.

Definition begin_value (tok : token) (stack : list frame)
  : option (expect * list frame) :=
  match tok with
  | TString s => finish (JStr s) stack
  | TNumber neg m e => finish (JNum neg m e) stack
  | TTrue => finish (JBool true) stack
  | TFalse => finish (JBool false) stack
  | TNull => finish JNull stack
  | TLBracket => Some (EFirstElement, FArray [] :: stack)
  | TLBrace => Some (EFirstMember, FObject [] None :: stack)
  | TRBrace | TRBracket | TColon | TComma => None
  end.

Definition member_name (tok : token) (stack : list frame)
  : option (expect * list frame) :=
  match tok, stack with
  | TString k, FObject acc None :: below =>
      Some (EColon, FObject acc (Some k) :: below)
  | _, _ => None
  end.

Definition close (tok : token) (stack : list frame)
  : option (expect * list frame) :=
  match tok, stack with
  | TRBracket, FArray acc :: below => finish (JArr (rev acc)) below
  | TRBrace, FObject acc None :: below => finish (JObj (rev acc)) below
  | _, _ => None
  end.

Definition parse_step (e : expect) (stack : list frame) (tok : token)
  : option (expect * list frame) :=
  match e with
  | EValue => begin_value tok stack
  | EFirstElement =>
      match tok with
      | TRBracket => close tok stack
      | _ => begin_value tok stack
      end
  | EFirstMember =>
      match tok with
      | TRBrace => close tok stack
      | _ => member_name tok stack
      end
  | EMember => member_name tok stack
  | EColon =>
      match tok with
      | TColon => Some (EValue, stack)
      | _ => None
      end
  | ENext =>
      match tok, stack with
      | TComma, FArray _ :: _ => Some (EValue, stack)
      | TComma, FObject _ None :: _ => Some (EMember, stack)
      | _, _ => close tok stack
      end
  | EEnd _ => None
  end.

Fixpoint parse_tokens (e : expect) (stack : list frame) (toks : list token)
  : option jsval :=
  match toks with
  | [] =>
      match e with
      | EEnd v => Some v
      | _ => None
      end
  | tok :: rest =>
      match parse_step e stack tok with
      | Some (e', stack') => parse_tokens e' stack' rest
      | None => None
      end
  end.

(** [JSON.parse(text)]: the value, or [None] when it throws a
    [SyntaxError]. *)
Definition parse (text : jsstring) : option jsval :=
  match scan SStart text with
  | Some toks => parse_tokens EValue [] toks
  | None => None
  end.

End JSON.

(** ** The component *)

Abbreviation Blob := (list byte).

(** A thrown or rejected value: an [Error] with its message, or something
    that is not an [Error]. *)
Inductive thrown : Type :=
| AnError (message : jsstring)
| NotAnError.

(** [err instanceof Error ? err.message : "An unknown error occurred"]. *)
Definition message_of (err : thrown) : jsval :=
  match err with
  | AnError m => JStr m
  | NotAnError => JStr (units "An unknown error occurred")
  end.

(** The [useState] cells and [useRef] boxes of one mounted
    [HttpStreamingTranscription]. *)
Record Component : Type := mkComponent {
  isRecording : bool;
  isStreaming : bool;
  transcription : jsval;
  error : jsval;
  status : string;
  audioBlob : option Blob;
  mediaRecorderRef : option nat;
  audioChunksRef : list Blob;
  processingIntervalRef : option nat
}.

Definition initial : Component :=
  mkComponent false false (JStr []) JNull "idle" None None [] None.

Definition setIsRecording (b : bool) (c : Component) : Component :=
  mkComponent b (isStreaming c) (transcription c) (error c) (status c)
    (audioBlob c) (mediaRecorderRef c) (audioChunksRef c)
    (processingIntervalRef c).

Definition setIsStreaming (b : bool) (c : Component) : Component :=
  mkComponent (isRecording c) b (transcription c) (error c) (status c)
    (audioBlob c) (mediaRecorderRef c) (audioChunksRef c)
    (processingIntervalRef c).

Definition setTranscription (v : jsval) (c : Component) : Component :=
  mkComponent (isRecording c) (isStreaming c) v (error c) (status c)
    (audioBlob c) (mediaRecorderRef c) (audioChunksRef c)
    (processingIntervalRef c).

Definition setError (v : jsval) (c : Component) : Component :=
  mkComponent (isRecording c) (isStreaming c) (transcription c) v (status c)
    (audioBlob c) (mediaRecorderRef c) (audioChunksRef c)
    (processingIntervalRef c).

Definition setStatus (s : string) (c : Component) : Component :=
  mkComponent (isRecording c) (isStreaming c) (transcription c) (error c) s
    (audioBlob c) (mediaRecorderRef c) (audioChunksRef c)
    (processingIntervalRef c).

Definition setAudioBlob (b : option Blob) (c : Component) : Component :=
  mkComponent (isRecording c) (isStreaming c) (transcription c) (error c)
    (status c) b (mediaRecorderRef c) (audioChunksRef c)
    (processingIntervalRef c).

Definition set_mediaRecorderRef (r : option nat) (c : Component) : Component :=
  mkComponent (isRecording c) (isStreaming c) (transcription c) (error c)
    (status c) (audioBlob c) r (audioChunksRef c) (processingIntervalRef c).

Definition set_audioChunksRef (l : list Blob) (c : Component) : Component :=
  mkComponent (isRecording c) (isStreaming c) (transcription c) (error c)
    (status c) (audioBlob c) (mediaRecorderRef c) l (processingIntervalRef c).

Definition set_processingIntervalRef (t : option nat) (c : Component)
  : Component :=
  mkComponent (isRecording c) (isStreaming c) (transcription c) (error c)
    (status c) (audioBlob c) (mediaRecorderRef c) (audioChunksRef c) t.

(** *** The response loop of [processAudioChunks] *)

(** How the body of [for (const line of lines)] leaves: on to the next
    line, or out of the loop by [break]. *)
Inductive completion : Type :=
| Normal (c : Component)
| Break (c : Component).

(** The [try] block on one line.  A [SyntaxError] of [JSON.parse] and the
    [TypeError] of reading [status] off [null] land in the [catch], which
    only logs. *)
Definition on_line (line : jsstring) (c : Component) : completion :=
  match JSON.parse line with
  | None => Normal c
  | Some data =>
      match Get data (units "status") with
      | None => Normal c
      | Some st =>
          if strict_eq_lit st "error" then
            Break (setError (default JUndefined (Get data (units "message"))) c)
          else if strict_eq_lit st "complete" then
            let result := default JUndefined (Get data (units "result")) in
            if ToBoolean result then
              let text := default JUndefined (Get result (units "text")) in
              Normal (setTranscription
                        (if ToBoolean text then text else JStr []) c)
            else Normal c
          else Normal c
      end
  end.

Fixpoint for_lines (lines : list jsstring) (c : Component) : Component :=
  match lines with
  | [] => c
  | line :: rest =>
      match on_line line c with
      | Normal c' => for_lines rest c'
      | Break c' => c'
      end
  end.

(** [chunk.split("\n").filter((line) => line.trim())]. *)
Definition lines_of (chunk : jsstring) : list jsstring :=
  List.filter (fun line => ToBoolean (JStr (trim line)))
    (split_newline chunk).

(** One turn of [while (true)] on a read that is not [done]: the chunk is
    decoded and its lines are handled; nothing of the chunk is kept for
    the next read but the decoder's open byte sequence. *)
Definition on_read (d : TextDecoder.t) (value : list byte) (c : Component)
  : TextDecoder.t * Component :=
  let '(chunk, d') := TextDecoder.decode d value in
  (d', for_lines (lines_of chunk) c).

(** The reads of one response handled back to back. *)
Fixpoint on_reads (d : TextDecoder.t) (values : list (list byte))
  (c : Component) : TextDecoder.t * Component :=
  match values with
  | [] => (d, c)
  | value :: rest =>
      let '(d', c') := on_read d value c in on_reads d' rest c'
  end.

(** *** Closures, host objects and the event loop *)

(** The props of the component. *)
Record Props : Type := mkProps {
  apiKey : jsstring;
  useApi : bool;
  device : jsstring;
  showTimestamps : bool
}.

(** The [processAudioChunks] of one render: [useCallback] rebuilds it when
    a prop or [isRecording] changes, so it holds the values of the render
    that made it.  The timer callback and [onstop] installed by
    [startRecording] keep calling the one of the render in which
    [startRecording] itself was made. *)
Record Callback : Type := mkCallback {
  cb_props : Props;
  cb_isRecording : bool
}.

(** The multipart body of a request. *)
Record FormData : Type := mkFormData {
  fd_file : Blob;
  fd_api_key : jsstring;
  fd_use_api : bool;
  fd_device : jsstring;
  fd_with_timestamps : bool
}.

(** Where a running [processAudioChunks] is suspended. *)
Inductive phase : Type :=
| AwaitFetch
| AwaitRead (decoder : TextDecoder.t).

(** A running [processAudioChunks].  [req_final] marks the call awaited by
    [onstop], whose [finally] runs when it returns. *)
Record Request : Type := mkRequest {
  req_callback : Callback;
  req_final : bool;
  req_body : FormData;
  req_phase : phase
}.

(** A [MediaRecorder]: whether its state is not ["inactive"], whether its
    [stop] event is still to be fired, whether the tracks of its stream
    are live, and the callback its [onstop] calls. *)
Record Recorder : Type := mkRecorder {
  rec_active : bool;
  rec_stopping : bool;
  rec_tracks_live : bool;
  rec_onstop : Callback
}.

(** The component together with what the host holds for it.  Identifiers
    are handed out in order from [next]; the identifier of a request is
    its place in the order of issue. *)
Record World : Type := mkWorld {
  ui : Component;
  props : Props;
  acquiring : gmap nat Callback;
  recorders : gmap nat Recorder;
  intervals : gmap nat Callback;
  timeouts : nat;
  requests : gmap nat Request;
  next : nat
}.

Definition boot (p : Props) : World :=
  mkWorld initial p ∅ ∅ ∅ 0%nat ∅ 0%nat.

Definition with_ui (f : Component -> Component) (w : World) : World :=
  mkWorld (f (ui w)) (props w) (acquiring w) (recorders w) (intervals w)
    (timeouts w) (requests w) (next w).

Definition with_acquiring (f : gmap nat Callback -> gmap nat Callback)
  (w : World) : World :=
  mkWorld (ui w) (props w) (f (acquiring w)) (recorders w) (intervals w)
    (timeouts w) (requests w) (next w).

Definition with_recorders (f : gmap nat Recorder -> gmap nat Recorder)
  (w : World) : World :=
  mkWorld (ui w) (props w) (acquiring w) (f (recorders w)) (intervals w)
    (timeouts w) (requests w) (next w).

Definition with_intervals (f : gmap nat Callback -> gmap nat Callback)
  (w : World) : World :=
  mkWorld (ui w) (props w) (acquiring w) (recorders w) (f (intervals w))
    (timeouts w) (requests w) (next w).

Definition with_timeouts (f : nat -> nat) (w : World) : World :=
  mkWorld (ui w) (props w) (acquiring w) (recorders w) (intervals w)
    (f (timeouts w)) (requests w) (next w).

Definition with_requests (f : gmap nat Request -> gmap nat Request)
  (w : World) : World :=
  mkWorld (ui w) (props w) (acquiring w) (recorders w) (intervals w)
    (timeouts w) (f (requests w)) (next w).

Definition bump (w : World) : World :=
  mkWorld (ui w) (props w) (acquiring w) (recorders w) (intervals w)
    (timeouts w) (requests w) (S (next w)).

(** The callback of the current render. *)
Definition current_callback (w : World) : Callback :=
  mkCallback (props w) (isRecording (ui w)).

(** [processAudioChunks] up to [await fetch]: nothing is sent while no
    chunk has been captured; otherwise the chunks captured so far go out
    as one file.  The result tells whether a request is now in flight. *)
Definition processAudioChunks (cb : Callback) (final : bool) (w : World)
  : bool * World :=
  match audioChunksRef (ui w) with
  | [] => (false, w)
  | chunks =>
      let body :=
        mkFormData (concat chunks) (apiKey (cb_props cb))
          (useApi (cb_props cb)) (device (cb_props cb))
          (showTimestamps (cb_props cb)) in
      (true,
       bump (with_requests
               <[next w := mkRequest cb final body AwaitFetch]> w))
  end.

(** The [finally] of [onstop], run when the call it awaits has
    returned. *)
Definition onstop_finally (final : bool) (c : Component) : Component :=
  if final then setStatus "idle" c else c.

(** [processAudioChunks] returns: its activation is gone, and [onstop]
    resumes if it was waiting on it. *)
Definition returned (id : nat) (r : Request) (w : World) : World :=
  with_ui (onstop_finally (req_final r)) (with_requests (delete id) w).

(** The outer [catch (err)] of [processAudioChunks]: the error is shown
    unless the [isRecording] of the callback is set. *)
Definition on_catch (cb : Callback) (err : thrown) (c : Component)
  : Component :=
  if negb (cb_isRecording cb) then setError (message_of err) c else c.

(** The decimal digits of a status code, as a template literal prints
    them. *)
Definition digits_of (n : N) : jsstring :=
  units (DecimalString.NilZero.string_of_uint (N.to_uint n)).

(** [response.ok]: the status is in the range 200 to 299. *)
Definition response_ok (code : N) : bool := TextDecoder.between 200 code 299.

(** [throw new Error(`HTTP error! status: ${response.status}`)]. *)
Definition http_error (code : N) : thrown :=
  AnError (units "HTTP error! status: " ++ digits_of code).

(** Whether [response.body] is [null]: among the statuses with
    [response.ok] these are 204 and 205, the null body statuses of the
    Fetch standard; every other response has a stream, if an empty
    one. *)
Definition null_body (code : N) : bool := (code =? 204) || (code =? 205).

(** What [response.body!.getReader()] throws when the body is [null]: a
    [TypeError], its message the engine's (here as V8 words it). *)
Definition no_reader : thrown :=
  AnError (units "Cannot read properties of null (reading 'getReader')").

(** [startRecording] up to [await getUserMedia].  The function belongs to
    the render whose button was clicked, and the [processAudioChunks]
    named in its body is the callback of that same render; [cb] is what
    the timer and [onstop] installed after the [await] will call. *)
Definition startRecording (w : World) : World :=
  let cb := current_callback w in
  let clear c :=
    setIsStreaming true
      (setAudioBlob None
         (set_audioChunksRef []
            (setTranscription (JStr []) (setError JNull c)))) in
  bump (with_acquiring <[next w := cb]> (with_ui clear w)).

(** What [getUserMedia] settles with. *)
Inductive acquisition : Type :=
| Granted
| Refused (err : thrown).

(** [startRecording] after [await getUserMedia].  On a granted stream the
    recorder is made and started (both taken to succeed) and the timer is
    armed; a rejection lands in the [catch]. *)
Definition startRecording_resume (cb : Callback) (a : acquisition) (w : World)
  : World :=
  match a with
  | Granted =>
      let rid := next w in
      let tid := S (next w) in
      let started c :=
        set_processingIntervalRef (Some tid)
          (setStatus "recording"
             (setIsRecording true (set_mediaRecorderRef (Some rid) c))) in
      bump (bump
        (with_intervals <[tid := cb]>
           (with_recorders <[rid := mkRecorder true false true cb]>
              (with_ui started w))))
  | Refused err =>
      with_ui (fun c => setIsStreaming false
                 (setIsRecording false (setError (message_of err) c))) w
  end.

(** [mediaRecorder.ondataavailable]. *)
Definition ondataavailable (data : Blob) (c : Component) : Component :=
  match data with
  | [] => c
  | _ => set_audioChunksRef (audioChunksRef c ++ [data]) c
  end.

(** [mediaRecorder.onstop] up to its [await]: the final request goes out
    through the callback [startRecording] closed over; with nothing to
    send the [finally] runs at once. *)
Definition onstop (cb : Callback) (w : World) : World :=
  let w1 :=
    with_ui (fun c => setAudioBlob (Some (concat (audioChunksRef c))) c) w in
  let '(sent, w2) := processAudioChunks cb true w1 in
  if sent then w2 else with_ui (onstop_finally true) w2.

(** [stopRecording]. *)
Definition stopRecording (w : World) : World :=
  match mediaRecorderRef (ui w) with
  | None => w
  | Some rid =>
      match recorders w !! rid with
      | Some r =>
          if rec_active r then
            let w1 :=
              with_recorders
                <[rid := mkRecorder false true false (rec_onstop r)]> w in
            let w2 :=
              match processingIntervalRef (ui w1) with
              | Some tid =>
                  with_ui (set_processingIntervalRef None)
                    (with_intervals (delete tid) w1)
              | None => w1
              end in
            with_timeouts S
              (with_ui (fun c => setStatus "processing"
                                   (setIsRecording false c)) w2)
          else w
      | None => w
      end
  end.

(** What can happen to the mounted component: a click on the button the
    render shows, or the host calling back.  The component stays mounted,
    and a recorder stops only through [stopRecording]. *)
Inductive event : Type :=
| ClickStart
| MediaSettled (id : nat) (a : acquisition)
| DataAvailable (rid : nat) (data : Blob)
| Tick (tid : nat)
| ClickStop
| RecorderStopped (rid : nat) (data : Blob)
| TimeoutFired
| FetchFailed (id : nat) (err : thrown)
| FetchResponded (id : nat) (code : N)
| ReadValue (id : nat) (value : list byte)
| ReadDone (id : nat)
| ReadFailed (id : nat) (err : thrown).

(** The render shows "Stop Recording" while [isRecording], a disabled
    button while [status === "processing"], and "Start Recording"
    otherwise. *)
Definition shows_stop (c : Component) : bool := isRecording c.

Definition shows_start (c : Component) : bool :=
  negb (isRecording c) && negb (String.eqb (status c) "processing").

(** One task of the event loop, or [None] when the event cannot occur in
    this world. *)
Definition step (e : event) (w : World) : option World :=
  match e with
  | ClickStart =>
      if shows_start (ui w) then Some (startRecording w) else None
  | MediaSettled id a =>
      cb ← acquiring w !! id;
      Some (startRecording_resume cb a (with_acquiring (delete id) w))
  | DataAvailable rid data =>
      r ← recorders w !! rid;
      if rec_active r then Some (with_ui (ondataavailable data) w) else None
  | Tick tid =>
      cb ← intervals w !! tid;
      Some (snd (processAudioChunks cb false w))
  | ClickStop =>
      if shows_stop (ui w) then Some (stopRecording w) else None
  | RecorderStopped rid data =>
      r ← recorders w !! rid;
      if rec_stopping r then
        Some (onstop (rec_onstop r)
                (with_recorders
                   <[rid := mkRecorder false false (rec_tracks_live r)
                              (rec_onstop r)]>
                   (with_ui (ondataavailable data) w)))
      else None
  | TimeoutFired =>
      match timeouts w with
      | O => None
      | S _ => Some (with_ui (setStatus "idle") (with_timeouts pred w))
      end
  | FetchFailed id err =>
      r ← requests w !! id;
      match req_phase r with
      | AwaitFetch =>
          Some (returned id r (with_ui (on_catch (req_callback r) err) w))
      | AwaitRead _ => None
      end
  | FetchResponded id code =>
      r ← requests w !! id;
      match req_phase r with
      | AwaitFetch =>
          if response_ok code then
            if null_body code then
              Some (returned id r
                      (with_ui (on_catch (req_callback r) no_reader) w))
            else
              Some (with_requests
                      <[id := mkRequest (req_callback r) (req_final r)
                                (req_body r) (AwaitRead TextDecoder.fresh)]> w)
          else
            Some (returned id r
                    (with_ui (on_catch (req_callback r) (http_error code)) w))
      | AwaitRead _ => None
      end
  | ReadValue id value =>
      r ← requests w !! id;
      match req_phase r with
      | AwaitRead d =>
          let '(d', c') := on_read d value (ui w) in
          Some (with_requests
                  <[id := mkRequest (req_callback r) (req_final r)
                            (req_body r) (AwaitRead d')]>
                  (with_ui (fun _ => c') w))
      | AwaitFetch => None
      end
  | ReadDone id =>
      r ← requests w !! id;
      match req_phase r with
      | AwaitRead _ => Some (returned id r w)
      | AwaitFetch => None
      end
  | ReadFailed id err =>
      r ← requests w !! id;
      match req_phase r with
      | AwaitRead _ =>
          Some (returned id r (with_ui (on_catch (req_callback r) err) w))
      | AwaitFetch => None
      end
  end.

(** A sequence of tasks. *)
Fixpoint run (es : list event) (w : World) : option World :=
  match es with
  | [] => Some w
  | e :: rest => w' ← step e w; run rest w'
  end.

(** The worlds the component can be in. *)
Inductive reachable (p : Props) : World -> Prop :=
| reachable_boot : reachable p (boot p)
| reachable_step e w w' :
    reachable p w -> step e w = Some w' -> reachable p w'.

(** A task of a run in which "Start Recording" is not clicked again while
    an earlier click still waits for the microphone. *)
Definition session_step (e : event) (w : World) : option World :=
  match e with
  | ClickStart => if bool_decide (acquiring w = ∅) then step e w else None
  | _ => step e w
  end.

Fixpoint session_run (es : list event) (w : World) : option World :=
  match es with
  | [] => Some w
  | e :: rest => w' ← session_step e w; session_run rest w'
  end.

(** *** Sample inputs *)

Definition LF : list byte := [Byte.x0a].

(** The bytes of a text in which each apostrophe stands for a double
    quote. *)
Definition json (s : string) : list byte :=
  map (fun b => if Byte.eqb b Byte.x27 then Byte.x22 else b)
      (list_byte_of_string s).

(** The code units of such a text, through the decoder. *)
Definition text (s : string) : jsstring :=
  fst (TextDecoder.decode TextDecoder.fresh (json s)).

Definition sample_props : Props :=
  mkProps (units "key") true (units "auto") true.

(** *** The events of a response, as the loop meets them *)

(** Whether a parsed line takes the [status === "error"] branch. *)
Definition is_error_event (data : jsval) : bool :=
  match Get data (units "status") with
  | Some st => strict_eq_lit st "error"
  | None => false
  end.

(** The text a parsed line hands to [setTranscription], if it takes the
    [status === "complete" && result] branch. *)
Definition complete_text (data : jsval) : option jsval :=
  match Get data (units "status") with
  | Some st =>
      if strict_eq_lit st "complete" then
        let result := default JUndefined (Get data (units "result")) in
        if ToBoolean result then
          let text := default JUndefined (Get result (units "text")) in
          Some (if ToBoolean text then text else JStr [])
        else None
      else None
  | None => None
  end.

(** The effect of one parsed line on the component. *)
Definition apply_event (c : Component) (data : jsval) : Component :=
  if is_error_event data then
    setError (default JUndefined (Get data (units "message"))) c
  else match complete_text data with
       | Some t => setTranscription t c
       | None => c
       end.

(** The values the loop binds to [data] over the lines of one chunk: the
    lines that parse, up to and including the first error event. *)
Fixpoint decoded (lines : list jsstring) : list jsval :=
  match lines with
  | [] => []
  | line :: rest =>
      match JSON.parse line with
      | None => decoded rest
      | Some data =>
          if is_error_event data then [data] else data :: decoded rest
      end
  end.

(** The same over the reads of a response. *)
Fixpoint decoded_reads (d : TextDecoder.t) (values : list (list byte))
  : list jsval :=
  match values with
  | [] => []
  | value :: rest =>
      let '(chunk, d') := TextDecoder.decode d value in
      decoded (lines_of chunk) ++ decoded_reads d' rest
  end.

(** The text the loop leaves in the transcription state after the
    events it handles, [before] being the text at its start: each
    [setTranscription] replaces what the one before it set. *)
Fixpoint text_after (events : list jsval) (before : jsval) : jsval :=
  match events with
  | [] => before
  | data :: rest =>
      text_after rest
        match complete_text data with
        | Some t => t
        | None => before
        end
  end.

(** The events one read of a response hands to the loop. *)
Definition read_events (d : TextDecoder.t) (value : list byte) : list jsval :=
  decoded (lines_of (fst (TextDecoder.decode d value))).

(** The argument of the last [setTranscription] call among the events,
    if there is a call. *)
Fixpoint last_text (events : list jsval) : option jsval :=
  match events with
  | [] => None
  | data :: rest =>
      match last_text rest with
      | Some t => Some t
      | None => complete_text data
      end
  end.

(** The texts of the reads, each decoded where the one before stopped. *)
Fixpoint chunks (d : TextDecoder.t) (values : list (list byte))
  : list jsstring :=
  match values with
  | [] => []
  | value :: rest =>
      fst (TextDecoder.decode d value)
      :: chunks (snd (TextDecoder.decode d value)) rest
  end.

(** Whether a line is an error event. *)
Definition is_error_line (line : jsstring) : bool :=
  match JSON.parse line with
  | Some data => is_error_event data
  | None => false
  end.

(** No line comes after an error event. *)
Fixpoint error_ends (lines : list jsstring) : bool :=
  match lines with
  | [] => true
  | line :: rest =>
      if is_error_line line then bool_decide (rest = []) else error_ends rest
  end.

(** Whether a read is empty or ends with a line feed. *)
Definition ends_line (value : list byte) : bool :=
  match rev value with
  | [] => true
  | b :: _ => Byte.eqb b Byte.x0a
  end.

(** Every read but the last ends on a line boundary. *)
Fixpoint line_aligned (values : list (list byte)) : bool :=
  match values with
  | [] => true
  | value :: rest =>
      match rest with
      | [] => true
      | _ => ends_line value && line_aligned rest
      end
  end.

(** A line that is not the text of a JSON object: it does not parse, or
    parses to some other value. *)
Definition not_an_object (line : jsstring) : Prop :=
  match JSON.parse line with
  | Some (JObj _) => False
  | _ => True
  end.

(** *** Shapes of worlds *)

(** The response loop writes the text and the error field only. *)
Definition same_session (c c' : Component) : Prop :=
  isRecording c' = isRecording c /\ isStreaming c' = isStreaming c /\
  status c' = status c /\ audioBlob c' = audioBlob c /\
  mediaRecorderRef c' = mediaRecorderRef c /\
  audioChunksRef c' = audioChunksRef c /\
  processingIntervalRef c' = processingIntervalRef c.

(** No start is under way, no timer is armed, and the component is not
    recording. *)
Definition quiet (w : World) : Prop :=
  acquiring w = ∅ /\ intervals w = ∅ /\ isRecording (ui w) = false.

(** Every callback the host holds was made by a render in which the
    component was not recording. *)
Definition made_idle (w : World) : Prop :=
  map_Forall (fun _ cb => cb_isRecording cb = false) (acquiring w) /\
  map_Forall (fun _ cb => cb_isRecording cb = false) (intervals w) /\
  map_Forall (fun _ r => cb_isRecording (rec_onstop r) = false)
    (recorders w) /\
  map_Forall (fun _ r => cb_isRecording (req_callback r) = false)
    (requests w).

(** The shape of a component run without overlapping starts: while it
    is recording, its recorder is active and its timer is the one armed
    timer; while it is not, no timer is armed and at most one start waits
    for the microphone. *)
Definition orderly (w : World) : Prop :=
  map_Forall (fun _ r => rec_active r = true -> rec_stopping r = false)
    (recorders w) /\
  if isRecording (ui w) then
    acquiring w = ∅ /\
    exists rid r tid cb,
      mediaRecorderRef (ui w) = Some rid /\ recorders w !! rid = Some r /\
      rec_active r = true /\
      processingIntervalRef (ui w) = Some tid /\ intervals w = {[tid := cb]}
  else
    intervals w = ∅ /\
    (acquiring w = ∅ \/ exists id cb, acquiring w = {[id := cb]}).

(** *** Sample runs *)

(** The world after a run from the mounted component, for runs that can
    occur. *)
Definition after (es : list event) : World :=
  default (boot sample_props) (run es (boot sample_props)).

Definition audio : Blob := list_byte_of_string "RIFF".

Definition complete_line (s : string) : list byte :=
  json "{'status':'complete','result':{'text':'" ++ list_byte_of_string s ++
  json "'}}" ++ LF.

(** The example of a complete event, its text in Thai. *)
Definition sawasdee : list byte :=
  json "{'status':'complete','result':{'text':'สวัสดี'}}" ++ LF.

(** A session that is recording, with one chunk captured. *)
Definition recording : list event :=
  [ClickStart; MediaSettled 0 Granted; DataAvailable 1 audio].

(** Two periodic requests in flight, both responses open. *)
Definition two_open : list event :=
  recording ++ [Tick 2; Tick 2;
                FetchResponded 3 200; FetchResponded 4 200].

(** The session is stopped with periodic request 3 still in flight; the
    final request 4 is answered first. *)
Definition final_first : list event :=
  recording ++ [Tick 2; ClickStop; RecorderStopped 1 [];
                FetchResponded 4 200;
                ReadValue 4 (complete_line "final"); ReadDone 4;
                FetchResponded 3 200].

(** A periodic request just issued by the timer of a recording session. *)
Definition ticked : list event := recording ++ [Tick 2].

(** The response of a periodic request is open. *)
Definition periodic_open : list event :=
  recording ++ [Tick 2; FetchResponded 3 200].

(** The response of the final request is open and has sent nothing. *)
Definition final_open : list event :=
  recording ++ [ClickStop; RecorderStopped 1 []; FetchResponded 3 200].

(** Three periodic requests, 3 to 5, issued by the timer and in flight. *)
Definition many_ticked : list event := recording ++ [Tick 2; Tick 2; Tick 2].

(** What follows a stop with those in flight: the recorder reports its
    stop, the final request 6 fails, request 3 is answered, the timeout
    fires, the stream of request 3 ends, request 4 fails. *)
Definition draining : list event :=
  [RecorderStopped 1 []; FetchFailed 6 (AnError (units "Failed to fetch"));
   FetchResponded 3 200; TimeoutFired; ReadDone 3;
   FetchFailed 4 NotAnError].

(** "Start Recording" clicked twice before the microphone answers, both
    requests granted: recorder 2 with timer 3, then recorder 4 with timer
    5, which the refs now hold.  Recorder 2 delivers a chunk. *)
Definition overlapping : list event :=
  [ClickStart; ClickStart; MediaSettled 0 Granted; MediaSettled 1 Granted;
   DataAvailable 2 audio].

(** The same two clicks, the first request granted and the second
    refused. *)
Definition refused_second : list event :=
  [ClickStart; ClickStart; MediaSettled 0 Granted;
   MediaSettled 1 (Refused (AnError (units "Permission denied")))].

(** *** The rest of the streaming component *)

(** The blobs that the recorder callbacks of a run push onto the chunk
    list: the data of each [dataavailable], that of a stop included, when
    its size is not zero. *)
Definition pushed (e : event) : list Blob :=
  match e with
  | DataAvailable _ (b :: data) => [b :: data]
  | RecorderStopped _ (b :: data) => [b :: data]
  | _ => []
  end.

Definition captured (es : list event) : list Blob := flat_map pushed es.

(** The cleanup of the mount effect: the recorder the ref holds is
    stopped, with its tracks, when it is not inactive, and the timer the
    ref holds is cleared.  No state is set and no ref is reset. *)
Definition unmount (w : World) : World :=
  let w1 :=
    match mediaRecorderRef (ui w) with
    | None => w
    | Some rid =>
        match recorders w !! rid with
        | Some r =>
            if rec_active r then
              with_recorders
                <[rid := mkRecorder false true false (rec_onstop r)]> w
            else w
        | None => w
        end
    end in
  match processingIntervalRef (ui w1) with
  | Some tid => with_intervals (delete tid) w1
  | None => w1
  end.

(** What the render shows below the button: the banner under
    [status === "streaming" && !error] and the text area under
    [transcription]. *)
Definition shows_streaming_banner (c : Component) : bool :=
  String.eqb (status c) "streaming" && negb (ToBoolean (error c)).

Definition shows_transcription (c : Component) : bool :=
  ToBoolean (transcription c).

(** The three values [status] is ever given. *)
Definition known_status (s : string) : Prop :=
  s = "idle"%string \/ s = "recording"%string \/ s = "processing"%string.

(** The text is the empty string or a truthy value. *)
Definition presentable (v : jsval) : Prop :=
  v = JStr [] \/ ToBoolean v = true.

(** The text of a response body: each line followed by the line end. *)
Definition body_text (eol : jsstring) (lines : list jsstring) : jsstring :=
  concat (map (fun line => line ++ eol) lines).

(** The white space of JSON. *)
Definition json_white_space (x : N) : bool :=
  (x =? 0x20) || (x =? 0x09) || (x =? 0x0A) || (x =? 0x0D).

(** A scanner state whose pending keyword does not contain [x]. *)
Definition word_without (x : N) (st : JSON.scan_state) : Prop :=
  match st with
  | JSON.SWord rest _ => existsb (N.eqb x) rest = false
  | _ => True
  end.

(** Whether a line is a [complete] event that sets the text. *)
Definition is_complete_line (line : jsstring) : bool :=
  match JSON.parse line with
  | Some data =>
      match complete_text data with
      | Some _ => true
      | None => false
      end
  | None => false
  end.

(** ** The page: [Home] *)

Module Home.

(** A file of the file input: its name and its content. *)
Record File : Type := mkFile {
  file_name : jsstring;
  file_blob : Blob
}.

(** The [useState] cells and [useRef] boxes of [Home].  An object URL is
    the number under which the host registered its blob. *)
Record State : Type := mkState {
  apiKey : jsstring;
  useApi : bool;
  showTimestamps : bool;
  device : jsstring;
  file : option File;
  audioUrl : option nat;
  isRecording : bool;
  recordedBlob : option Blob;
  recordedUrl : option nat;
  mediaRecorderRef : option nat;
  audioChunksRef : list Blob;
  isTranscribing : bool;
  transcription : jsval;
  error : jsval
}.

(** The first render; [key] is [process.env.NEXT_PUBLIC_API_KEY || ""]. *)
Definition initial (key : jsstring) : State :=
  mkState key true true (units "auto") None None false None None None []
    false JNull JNull.

Definition setConfig (k : jsstring) (u t : bool) (d : jsstring) (s : State)
  : State :=
  mkState k u t d (file s) (audioUrl s) (isRecording s) (recordedBlob s)
    (recordedUrl s) (mediaRecorderRef s) (audioChunksRef s)
    (isTranscribing s) (transcription s) (error s).

Definition setFile (f : option File) (u : option nat) (s : State) : State :=
  mkState (apiKey s) (useApi s) (showTimestamps s) (device s) f u
    (isRecording s) (recordedBlob s) (recordedUrl s) (mediaRecorderRef s)
    (audioChunksRef s) (isTranscribing s) (transcription s) (error s).

Definition setIsRecording (b : bool) (s : State) : State :=
  mkState (apiKey s) (useApi s) (showTimestamps s) (device s) (file s)
    (audioUrl s) b (recordedBlob s) (recordedUrl s) (mediaRecorderRef s)
    (audioChunksRef s) (isTranscribing s) (transcription s) (error s).

Definition setRecorded (b : option Blob) (u : option nat) (s : State)
  : State :=
  mkState (apiKey s) (useApi s) (showTimestamps s) (device s) (file s)
    (audioUrl s) (isRecording s) b u (mediaRecorderRef s)
    (audioChunksRef s) (isTranscribing s) (transcription s) (error s).

Definition set_mediaRecorderRef (r : option nat) (s : State) : State :=
  mkState (apiKey s) (useApi s) (showTimestamps s) (device s) (file s)
    (audioUrl s) (isRecording s) (recordedBlob s) (recordedUrl s) r
    (audioChunksRef s) (isTranscribing s) (transcription s) (error s).

Definition set_audioChunksRef (l : list Blob) (s : State) : State :=
  mkState (apiKey s) (useApi s) (showTimestamps s) (device s) (file s)
    (audioUrl s) (isRecording s) (recordedBlob s) (recordedUrl s)
    (mediaRecorderRef s) l (isTranscribing s) (transcription s) (error s).

Definition setIsTranscribing (b : bool) (s : State) : State :=
  mkState (apiKey s) (useApi s) (showTimestamps s) (device s) (file s)
    (audioUrl s) (isRecording s) (recordedBlob s) (recordedUrl s)
    (mediaRecorderRef s) (audioChunksRef s) b (transcription s) (error s).

Definition setTranscription (v : jsval) (s : State) : State :=
  mkState (apiKey s) (useApi s) (showTimestamps s) (device s) (file s)
    (audioUrl s) (isRecording s) (recordedBlob s) (recordedUrl s)
    (mediaRecorderRef s) (audioChunksRef s) (isTranscribing s) v (error s).

Definition setError (v : jsval) (s : State) : State :=
  mkState (apiKey s) (useApi s) (showTimestamps s) (device s) (file s)
    (audioUrl s) (isRecording s) (recordedBlob s) (recordedUrl s)
    (mediaRecorderRef s) (audioChunksRef s) (isTranscribing s)
    (transcription s) v.

(** What the JavaScript engine decides and the component only passes on:
    how a number prints, and the message of the [TypeError] raised by
    reading a property of [null]. *)
Record Engine : Type := mkEngine {
  number_to_string : bool -> N -> Z -> jsstring;
  null_property_message : jsstring
}.

(** [ToString], as [new Error(value)] applies it to its argument.  An
    array prints its elements separated by commas, [null] elements as
    nothing. *)
Fixpoint ToString (eng : Engine) (v : jsval) : jsstring :=
  match v with
  | JUndefined => units "undefined"
  | JNull => units "null"
  | JBool true => units "true"
  | JBool false => units "false"
  | JNum neg m e => number_to_string eng neg m e
  | JStr s => s
  | JObj _ => units "[object Object]"
  | JArr elems =>
      let element x :=
        match x with
        | JUndefined | JNull => []
        | _ => ToString eng x
        end in
      (fix join (l : list jsval) : jsstring :=
         match l with
         | [] => []
         | [x] => element x
         | x :: rest => element x ++ 0x2C :: join rest
         end) elems
  end.

(** What [response.json()] settles with. *)
Inductive body : Type :=
| BodyValue (v : jsval)
| BodyRejected (err : thrown).

(** How the request of [transcribeAudio] ends: [fetch] rejects, or a
    response arrives with its status and its body. *)
Inductive outcome : Type :=
| FetchRejected (err : thrown)
| Responded (code : N) (b : body).

(** The [catch] of [transcribeAudio]. *)
Definition on_catch (err : thrown) (s : State) : State :=
  setError (message_of err) s.

(** [transcribeAudio] from the answer of [fetch] to its end: the [try]
    block after the [await], the [catch], and the [finally]. *)
Definition transcribeAudio_resume (eng : Engine) (o : outcome) (s : State)
  : State :=
  setIsTranscribing false
    match o with
    | FetchRejected err => on_catch err s
    | Responded code b =>
        if response_ok code then
          match b with
          | BodyValue result => setTranscription result s
          | BodyRejected err => on_catch err s
          end
        else
          match b with
          | BodyRejected err => on_catch err s
          | BodyValue errorData =>
              match Get errorData (units "detail") with
              | None => on_catch (AnError (null_property_message eng)) s
              | Some detail =>
                  on_catch
                    (AnError
                       (ToString eng
                          (if ToBoolean detail then detail
                           else JStr (units "Failed to transcribe audio"))))
                    s
              end
          end
    end.

(** A [MediaRecorder] of the page. *)
Record Recorder : Type := mkRecorder {
  rec_active : bool;
  rec_stopping : bool;
  rec_tracks_live : bool
}.

(** The page together with what the host holds for it: the object URLs
    handed out, the recorders, how many [getUserMedia] calls are pending,
    and the requests of [transcribeAudio] in flight. *)
Record World : Type := mkWorld {
  page : State;
  urls : gmap nat Blob;
  recorders : gmap nat Recorder;
  acquiring : nat;
  calls : gmap nat FormData;
  next : nat
}.

Definition boot (key : jsstring) : World :=
  mkWorld (initial key) ∅ ∅ 0%nat ∅ 0%nat.

Definition with_page (f : State -> State) (w : World) : World :=
  mkWorld (f (page w)) (urls w) (recorders w) (acquiring w) (calls w)
    (next w).

Definition with_recorders (f : gmap nat Recorder -> gmap nat Recorder)
  (w : World) : World :=
  mkWorld (page w) (urls w) (f (recorders w)) (acquiring w) (calls w)
    (next w).

Definition with_acquiring (f : nat -> nat) (w : World) : World :=
  mkWorld (page w) (urls w) (recorders w) (f (acquiring w)) (calls w)
    (next w).

Definition with_calls (f : gmap nat FormData -> gmap nat FormData)
  (w : World) : World :=
  mkWorld (page w) (urls w) (recorders w) (acquiring w) (f (calls w))
    (next w).

Definition bump (w : World) : World :=
  mkWorld (page w) (urls w) (recorders w) (acquiring w) (calls w)
    (S (next w)).

(** [URL.createObjectURL(blob)]: a URL not handed out before. *)
Definition createObjectURL (b : Blob) (w : World) : nat * World :=
  (next w,
   mkWorld (page w) (<[next w := b]> (urls w)) (recorders w) (acquiring w)
     (calls w) (S (next w))).

(** [handleFileChange]: with no file in the event nothing happens. *)
Definition handleFileChange (files : list File) (w : World) : World :=
  match files with
  | [] => w
  | selectedFile :: _ =>
      let '(url, w1) := createObjectURL (file_blob selectedFile) w in
      with_page (fun s => setError JNull
                            (setFile (Some selectedFile) (Some url) s)) w1
  end.

(** [startRecording] after [await getUserMedia]; nothing is done before
    it.  The [catch] shows one fixed message. *)
Definition startRecording_resume (a : acquisition) (w : World) : World :=
  match a with
  | Granted =>
      with_page
        (fun s => setError JNull
                    (setIsRecording true
                       (set_audioChunksRef []
                          (set_mediaRecorderRef (Some (next w)) s))))
        (bump (with_recorders <[next w := mkRecorder true false true]> w))
  | Refused _ =>
      with_page
        (setError
           (JStr (units
              "Error accessing microphone. Please make sure your browser has permission to use the microphone.")))
        w
  end.

(** [mediaRecorder.ondataavailable]. *)
Definition ondataavailable (data : Blob) (s : State) : State :=
  match data with
  | [] => s
  | _ => set_audioChunksRef (audioChunksRef s ++ [data]) s
  end.

(** [mediaRecorder.onstop]. *)
Definition onstop (w : World) : World :=
  let audioBlob := concat (audioChunksRef (page w)) in
  let '(url, w1) := createObjectURL audioBlob w in
  with_page (setRecorded (Some audioBlob) (Some url)) w1.

(** [stopRecording], called with the [isRecording] of the current
    render.  [stop()] on a recorder that is already inactive does
    nothing. *)
Definition stopRecording (w : World) : World :=
  match mediaRecorderRef (page w) with
  | None => w
  | Some rid =>
      if isRecording (page w) then
        with_page (setIsRecording false)
          (with_recorders
             (fun rs =>
                match rs !! rid with
                | Some r =>
                    <[rid := mkRecorder false
                               (rec_stopping r || rec_active r) false]> rs
                | None => rs
                end) w)
      else w
  end.

(** [transcribeAudio] up to [await fetch]. *)
Definition transcribeAudio (audioBlob : Blob) (w : World) : World :=
  let s := page w in
  let formData :=
    mkFormData audioBlob (apiKey s) (useApi s) (device s)
      (showTimestamps s) in
  bump (with_calls <[next w := formData]>
          (with_page (fun s => setTranscription JNull
                                 (setError JNull
                                    (setIsTranscribing true s))) w)).

(** Whether a call ended with a result, and with which. *)
Definition result_of (o : outcome) : option jsval :=
  match o with
  | Responded code (BodyValue v) => if response_ok code then Some v else None
  | _ => None
  end.

(** What can happen to the page.  [ChangeConfig] is a change of one of
    the configuration inputs, the other values repeated. *)
Inductive event : Type :=
| ChangeConfig (k : jsstring) (u t : bool) (d : jsstring)
| ChooseFiles (files : list File)
| ClickStart
| MediaSettled (a : acquisition)
| DataAvailable (rid : nat) (data : Blob)
| ClickStop
| RecorderStopped (rid : nat) (data : Blob)
| ClickTranscribeFile
| ClickTranscribeRecording
| Settled (id : nat) (o : outcome).

(** One task of the event loop.  "Start Recording" is shown while not
    recording and "Stop Recording" while recording; each "Transcribe"
    button is disabled without its audio or while [isTranscribing]. *)
Definition step (eng : Engine) (e : event) (w : World) : option World :=
  match e with
  | ChangeConfig k u t d => Some (with_page (setConfig k u t d) w)
  | ChooseFiles files => Some (handleFileChange files w)
  | ClickStart =>
      if isRecording (page w) then None else Some (with_acquiring S w)
  | MediaSettled a =>
      match acquiring w with
      | O => None
      | S _ => Some (startRecording_resume a (with_acquiring pred w))
      end
  | DataAvailable rid data =>
      r ← recorders w !! rid;
      if rec_active r then Some (with_page (ondataavailable data) w) else None
  | ClickStop =>
      if isRecording (page w) then Some (stopRecording w) else None
  | RecorderStopped rid data =>
      r ← recorders w !! rid;
      if rec_stopping r then
        Some (onstop
                (with_recorders
                   <[rid := mkRecorder false false (rec_tracks_live r)]>
                   (with_page (ondataavailable data) w)))
      else None
  | ClickTranscribeFile =>
      f ← file (page w);
      if isTranscribing (page w) then None
      else Some (transcribeAudio (file_blob f) w)
  | ClickTranscribeRecording =>
      b ← recordedBlob (page w);
      if isTranscribing (page w) then None
      else Some (transcribeAudio b w)
  | Settled id o =>
      _ ← calls w !! id;
      Some (with_page (transcribeAudio_resume eng o)
              (with_calls (delete id) w))
  end.

Fixpoint run (eng : Engine) (es : list event) (w : World) : option World :=
  match es with
  | [] => Some w
  | e :: rest => w' ← step eng e w; run eng rest w'
  end.

(** The worlds the page can be in. *)
Inductive reachable (eng : Engine) (key : jsstring) : World -> Prop :=
| reachable_boot : reachable eng key (boot key)
| reachable_step e w w' :
    reachable eng key w -> step eng e w = Some w' -> reachable eng key w'.

(** At most one [transcribeAudio] is running, and [isTranscribing] says
    whether one is. *)
Definition single_flight (w : World) : Prop :=
  if isTranscribing (page w) then exists id fd, calls w = {[id := fd]}
  else calls w = ∅.

(** Each player has the audio its "Transcribe" button would send, and
    every URL handed out is older than the next one. *)
Definition players_match (w : World) : Prop :=
  (forall u b, urls w !! u = Some b -> (u < next w)%nat) /\
  match audioUrl (page w) with
  | Some u => exists f, file (page w) = Some f /\
                        urls w !! u = Some (file_blob f)
  | None => file (page w) = None
  end /\
  match recordedUrl (page w) with
  | Some u => exists b, recordedBlob (page w) = Some b /\
                        urls w !! u = Some b
  | None => recordedBlob (page w) = None
  end.

(** The blobs pushed by the recorder callbacks of a run. *)
Definition pushed (e : event) : list Blob :=
  match e with
  | DataAvailable _ (b :: data) => [b :: data]
  | RecorderStopped _ (b :: data) => [b :: data]
  | _ => []
  end.

Definition captured (es : list event) : list Blob := flat_map pushed es.

(** Whether the render shows the results card, under [transcription &&]. *)
Definition shows_results (s : State) : bool := ToBoolean (transcription s).

(** An engine to run examples with. *)
Definition sample_engine : Engine :=
  mkEngine (fun _ _ _ => units "0")
    (units "Cannot read properties of null (reading 'detail')").

(** Sample runs of the page. *)
Definition after (es : list event) : World :=
  default (boot (units "key")) (run sample_engine es (boot (units "key"))).

Definition clip : File := mkFile (units "clip.wav") audio.

Definition chosen : list event := [ChooseFiles [clip]].

Definition uploading : list event := [ChooseFiles [clip]; ClickTranscribeFile].

Definition taping : list event := [DataAvailable 0 audio; ClickStop].

Definition taped : list event :=
  [ClickStart; MediaSettled Granted] ++ taping ++ [RecorderStopped 0 audio].

End Home.

(** * Properties *)

(** ** The loop over the lines of a chunk *)

Section Loop.

Implicit Types (c : Component) (line : jsstring) (data : jsval).

Lemma on_line_apply line c :
  on_line line c =
  match JSON.parse line with
  | None => Normal c
  | Some data =>
      if is_error_event data then Break (apply_event c data)
      else Normal (apply_event c data)
  end.
Proof.
  unfold on_line, apply_event, is_error_event, complete_text.
  destruct (JSON.parse line) as [data|]; [|reflexivity].
  destruct (Get data (units "status")) as [st|]; [|reflexivity].
  destruct (strict_eq_lit st "error"); [reflexivity|].
  destruct (strict_eq_lit st "complete"); [|reflexivity].
  destruct (ToBoolean _); reflexivity.
Qed.

Lemma for_lines_decoded lines c :
  for_lines lines c = fold_left apply_event (decoded lines) c.
Proof.
  revert c. induction lines as [|line rest IH]; intros c; [reflexivity|].
  cbn [for_lines decoded]. rewrite on_line_apply.
  destruct (JSON.parse line) as [data|]; [|apply IH].
  destruct (is_error_event data); [reflexivity|]. cbn. apply IH.
Qed.

Lemma is_error_line_false line c :
  is_error_line line = false -> exists c', on_line line c = Normal c'.
Proof.
  unfold is_error_line. rewrite on_line_apply.
  destruct (JSON.parse line) as [data|]; [|eauto].
  intros ->. eauto.
Qed.

(** A line that is not a JSON object changes nothing and does not leave
    the loop. *)
Lemma on_line_not_an_object line c :
  not_an_object line -> on_line line c = Normal c.
Proof.
  unfold not_an_object, on_line.
  destruct (JSON.parse line) as [[]|]; try reflexivity. intros [].
Qed.

Lemma for_lines_skip pre bad post c :
  not_an_object bad ->
  for_lines (pre ++ bad :: post) c = for_lines (pre ++ post) c.
Proof.
  intros Hbad. revert c.
  induction pre as [|line pre IH]; intros c; cbn [app for_lines].
  - rewrite (on_line_not_an_object _ _ Hbad). reflexivity.
  - destruct (on_line line c); [apply IH | reflexivity].
Qed.

End Loop.

(** ** Splitting a chunk into lines *)

Section Lines.

Implicit Types (s t u : jsstring).

Lemma split_newline_nonempty s : split_newline s <> [].
Proof.
  destruct s as [|c s]; cbn; [discriminate|].
  destruct (c =? 10); [discriminate|].
  destruct (split_newline s); discriminate.
Qed.

(** A line feed separates the pieces before it from those after it. *)
Lemma split_newline_app t u :
  split_newline (t ++ 0x0A :: u) = split_newline t ++ split_newline u.
Proof.
  induction t as [|c t IH]; [reflexivity|].
  cbn [app split_newline]. destruct (c =? 10).
  - rewrite IH. reflexivity.
  - rewrite IH. pose proof (split_newline_nonempty t) as Hne.
    destruct (split_newline t); [contradiction|reflexivity].
Qed.

(** A piece without line feed is one line. *)
Lemma split_newline_one t :
  Forall (fun c => c <> 0x0A) t -> split_newline t = [t].
Proof.
  induction 1 as [|c t Hc _ IH]; [reflexivity|].
  cbn. rewrite IH. apply N.eqb_neq in Hc. rewrite Hc. reflexivity.
Qed.

Lemma lines_of_nil : lines_of [] = [].
Proof. reflexivity. Qed.

Lemma lines_of_app t u :
  lines_of (t ++ 0x0A :: u) = lines_of t ++ lines_of u.
Proof.
  unfold lines_of. rewrite split_newline_app. apply List.filter_app.
Qed.

(** A chunk that ends with a line feed has the lines of what precedes
    it, and what follows it starts a new line. *)
Lemma lines_of_terminated t u :
  lines_of ((t ++ [0x0A]) ++ u) = lines_of (t ++ [0x0A]) ++ lines_of u.
Proof.
  rewrite <- app_assoc. cbn [app]. rewrite !lines_of_app, lines_of_nil.
  rewrite app_nil_r. reflexivity.
Qed.

End Lines.

(** ** The streaming decoder *)

Section Decoder.

Import TextDecoder.

Implicit Types (d : TextDecoder.t) (a b : list byte).

Ltac split_ifs :=
  repeat match goal with
         | |- context [if ?x then _ else _] => destruct x
         end.

Lemma handler_with_bom_seen s d n :
  handler (with_bom_seen s d) n =
  (fst (handler d n), with_bom_seen s (snd (handler d n))).
Proof.
  unfold handler, lead, reset, with_bom_seen; cbn.
  split_ifs; reflexivity.
Qed.

Lemma handler_bom_seen d n : bom_seen (snd (handler d n)) = bom_seen d.
Proof.
  unfold handler, lead, reset; cbn. split_ifs; reflexivity.
Qed.

Lemma run_with_bom_seen s d a :
  run (with_bom_seen s d) a =
  (fst (run d a), with_bom_seen s (snd (run d a))).
Proof.
  revert d. induction a as [|x a IH]; intros d; [reflexivity|].
  cbn [run]. rewrite handler_with_bom_seen.
  destruct (handler d (Byte.to_N x)) as [out d1]. cbn [fst snd].
  rewrite IH. destruct (run d1 a) as [outs d2]. reflexivity.
Qed.

Lemma run_bom_seen d a : bom_seen (snd (run d a)) = bom_seen d.
Proof.
  revert d. induction a as [|x a IH]; intros d; [reflexivity|].
  cbn [run]. pose proof (handler_bom_seen d (Byte.to_N x)) as Hh.
  destruct (handler d (Byte.to_N x)) as [out d1]. cbn [snd] in Hh.
  specialize (IH d1). destruct (run d1 a) as [outs d2]. cbn [snd] in *.
  congruence.
Qed.

Lemma run_app d a b :
  run d (a ++ b) =
  (fst (run d a) ++ fst (run (snd (run d a)) b),
   snd (run (snd (run d a)) b)).
Proof.
  revert d. induction a as [|x a IH]; intros d.
  - cbn. destruct (run d b); reflexivity.
  - cbn [app run]. destruct (handler d (Byte.to_N x)) as [out d1].
    rewrite IH. destruct (run d1 a) as [outs d2]. cbn [fst snd].
    rewrite app_assoc. reflexivity.
Qed.

Lemma serialize_seen cps : serialize true cps = (flat_map utf16 cps, true).
Proof. destruct cps; reflexivity. Qed.

Lemma serialize_app seen cps1 cps2 :
  serialize seen (cps1 ++ cps2) =
  (fst (serialize seen cps1) ++
   fst (serialize (snd (serialize seen cps1)) cps2),
   snd (serialize (snd (serialize seen cps1)) cps2)).
Proof.
  destruct cps1 as [|cp rest].
  - cbn. destruct (serialize seen cps2); reflexivity.
  - cbn [app serialize].
    destruct (negb seen && (cp =? 65279)); cbn [fst snd];
      rewrite serialize_seen; cbn [fst snd].
    + rewrite flat_map_app. reflexivity.
    + rewrite <- flat_map_app. reflexivity.
Qed.

Lemma decode_unfold d a :
  decode d a =
  (fst (serialize (bom_seen d) (fst (run d a))),
   with_bom_seen (snd (serialize (bom_seen d) (fst (run d a))))
     (snd (run d a))).
Proof.
  unfold decode. pose proof (run_bom_seen d a) as Ha.
  destruct (run d a) as [cps d']. cbn [fst snd] in *. rewrite Ha.
  destruct (serialize (bom_seen d) cps). reflexivity.
Qed.

(** Decoding is the same whether the bytes come in one read or two. *)
Lemma decode_app d a b :
  decode d (a ++ b) =
  (fst (decode d a) ++ fst (decode (snd (decode d a)) b),
   snd (decode (snd (decode d a)) b)).
Proof.
  rewrite !decode_unfold. cbn [fst snd].
  rewrite !run_with_bom_seen, run_app. cbn [fst snd].
  rewrite serialize_app. reflexivity.
Qed.

Lemma well_formed_fresh : well_formed fresh.
Proof. unfold well_formed; cbn; lia. Qed.

Lemma well_formed_handler d n :
  well_formed d -> well_formed (snd (handler d n)).
Proof.
  unfold well_formed, handler, lead, reset; cbn.
  split_ifs; cbn; intros; lia.
Qed.

Lemma well_formed_run d a : well_formed d -> well_formed (snd (run d a)).
Proof.
  revert d. induction a as [|x a IH]; intros d Hd; [exact Hd|].
  cbn [run]. pose proof (well_formed_handler d (Byte.to_N x) Hd) as Hh.
  destruct (handler d (Byte.to_N x)) as [out d1].
  specialize (IH d1 Hh). destruct (run d1 a). exact IH.
Qed.

Lemma well_formed_decode d a :
  well_formed d -> well_formed (snd (decode d a)).
Proof.
  intros Hd. unfold decode. pose proof (well_formed_run d a Hd) as Hr.
  destruct (run d a) as [cps d']. destruct (serialize _ cps). exact Hr.
Qed.

(** A line feed byte always comes out as a line feed, closing whatever
    was open. *)
Lemma decode_line_feed d :
  well_formed d ->
  exists t, fst (decode d [Byte.x0a]) = t ++ [0x0A].
Proof.
  unfold well_formed, decode, run, handler, lead. cbn [Byte.to_N].
  intros Hd. destruct (bytes_needed d =? 0).
  - exists []. cbn. destruct (bom_seen d); reflexivity.
  - replace (between (lower_boundary d) 10 (upper_boundary d)) with false.
    + exists [0xFFFD]. cbn. destruct (bom_seen d); reflexivity.
    + unfold between. symmetry. apply andb_false_iff. left.
      apply N.leb_gt. lia.
Qed.

(** So a read that ends with a line feed decodes to a chunk that does. *)
Lemma decode_ends_line d a :
  well_formed d -> a <> [] -> ends_line a = true ->
  exists t, fst (decode d a) = t ++ [0x0A].
Proof.
  intros Hd Hne. unfold ends_line.
  destruct (rev a) as [|x r] eqn:Hrev.
  - apply (f_equal (@rev byte)) in Hrev. rewrite rev_involutive in Hrev.
    contradiction.
  - intros Hx. apply Byte.byte_dec_bl in Hx. subst x.
    apply (f_equal (@rev byte)) in Hrev. rewrite rev_involutive in Hrev.
    cbn in Hrev. subst a. rewrite decode_app. cbn [fst].
    destruct (decode_line_feed (snd (decode d (rev r)))) as [t Ht].
    { apply well_formed_decode, Hd. }
    rewrite Ht. exists (fst (decode d (rev r)) ++ t).
    rewrite app_assoc. reflexivity.
Qed.

End Decoder.

(** ** Reads and lines *)

Section Reads.

Import TextDecoder.

Implicit Types (d : TextDecoder.t) (c : Component).

Lemma decode_nil d : decode d [] = ([], d).
Proof. destruct d as [? ? ? ? ? []]; reflexivity. Qed.

Lemma error_ends_app_r l1 l2 :
  error_ends (l1 ++ l2) = true -> error_ends l2 = true.
Proof.
  induction l1 as [|line l1 IH]; [trivial|]. cbn [app error_ends].
  destruct (is_error_line line); [|exact IH].
  intros H. apply bool_decide_eq_true in H.
  apply app_eq_nil in H as [_ ->]. reflexivity.
Qed.

(** When nothing follows an error event, the loop over two runs of lines
    is the loop over the first and then over the second. *)
Lemma for_lines_app l1 l2 c :
  error_ends (l1 ++ l2) = true ->
  for_lines (l1 ++ l2) c = for_lines l2 (for_lines l1 c).
Proof.
  revert c. induction l1 as [|line l1 IH]; intros c; [reflexivity|].
  cbn [app error_ends for_lines].
  destruct (is_error_line line) eqn:Hline.
  - intros H. apply bool_decide_eq_true in H.
    apply app_eq_nil in H as [-> ->]. cbn.
    destruct (on_line line c); reflexivity.
  - destruct (is_error_line_false line c Hline) as [c' ->]. apply IH.
Qed.

Lemma decoded_app l1 l2 :
  error_ends (l1 ++ l2) = true ->
  decoded (l1 ++ l2) = decoded l1 ++ decoded l2.
Proof.
  induction l1 as [|line l1 IH]; [reflexivity|].
  cbn [app error_ends decoded]. unfold is_error_line.
  destruct (JSON.parse line) as [data|]; [|exact IH].
  destruct (is_error_event data).
  - intros H. apply bool_decide_eq_true in H.
    apply app_eq_nil in H as [-> ->]. reflexivity.
  - intros H. cbn [app]. rewrite (IH H). reflexivity.
Qed.

(** The lines of a read that ends on a line boundary are not affected
    by what the next read brings. *)
Lemma lines_of_aligned d value more :
  well_formed d -> ends_line value = true ->
  lines_of (fst (decode d value) ++ more) =
  lines_of (fst (decode d value)) ++ lines_of more.
Proof.
  intros Hd Hv. destruct value as [|x value].
  - rewrite decode_nil. reflexivity.
  - destruct (decode_ends_line d (x :: value) Hd) as [t ->];
      [discriminate | exact Hv |].
    apply lines_of_terminated.
Qed.

Lemma on_reads_one d value c : on_reads d [value] c = on_read d value c.
Proof. cbn. destruct (on_read d value c). reflexivity. Qed.

Lemma decoded_reads_one d value :
  decoded_reads d [value] = decoded (lines_of (fst (decode d value))).
Proof. cbn. destruct (decode d value). apply app_nil_r. Qed.

Lemma on_read_unfold d value c :
  on_read d value c =
  (snd (decode d value), for_lines (lines_of (fst (decode d value))) c).
Proof. unfold on_read. destruct (decode d value). reflexivity. Qed.

(** However the bytes are cut into reads, the chunks put together are
    the text of the whole: the decoder carries an unfinished character
    over a read boundary.  Only lines are not carried over. *)
Lemma chunks_concat d values :
  concat (chunks d values) = fst (decode d (concat values)).
Proof.
  revert d. induction values as [|value rest IH]; intros d.
  - cbn [chunks concat]. rewrite decode_nil. reflexivity.
  - cbn [chunks concat]. rewrite IH, decode_app. reflexivity.
Qed.

Lemma reads_aligned d values c :
  well_formed d -> line_aligned values = true ->
  error_ends (lines_of (fst (decode d (concat values)))) = true ->
  decoded_reads d values = decoded_reads d [concat values] /\
  on_reads d values c = on_reads d [concat values] c.
Proof.
  revert d c. induction values as [|value rest IH]; intros d c Hd Hal Herr.
  - rewrite on_reads_one, decoded_reads_one, on_read_unfold. cbn [concat].
    rewrite decode_nil. split; reflexivity.
  - destruct rest as [|value' rest'].
    { cbn [concat]. rewrite app_nil_r. split; reflexivity. }
    change (ends_line value && line_aligned (value' :: rest') = true) in Hal.
    apply andb_true_iff in Hal as [Hv Hal].
    remember (value' :: rest') as rest eqn:Hrest.
    cbn [concat] in *. rewrite decode_app in Herr. cbn [fst] in Herr.
    rewrite (lines_of_aligned d value _ Hd Hv) in Herr.
    pose proof (well_formed_decode d value Hd) as Hd1.
    destruct (IH (snd (decode d value))
                (for_lines (lines_of (fst (decode d value))) c) Hd1 Hal
                (error_ends_app_r _ _ Herr)) as [IHd IHr].
    rewrite on_reads_one, decoded_reads_one in *.
    rewrite on_read_unfold, !decode_app. cbn [fst snd].
    rewrite !(lines_of_aligned d value _ Hd Hv).
    rewrite (for_lines_app _ _ c Herr), (decoded_app _ _ Herr).
    cbn [on_reads decoded_reads]. rewrite on_read_unfold.
    destruct (decode d value) as [chunk d1]. cbn [fst snd] in *.
    rewrite IHd, IHr, on_read_unfold. split; reflexivity.
Qed.

End Reads.

(** ** The frame decoder *)

Section FrameDecoder.

Import TextDecoder.

(** C1, as stated, fails: the loop keeps no carry-over between reads.  The
    example line delivered as one read decodes to its complete event and
    sets the text; the same bytes delivered as two reads split inside the
    object, or one byte at a time, decode to no event and leave the text
    empty. *)
Lemma C1_split_read_drops_event :
  firstn 30 sawasdee ++ skipn 30 sawasdee = sawasdee /\
  decoded_reads fresh [sawasdee] =
    [JObj [(units "status", JStr (units "complete"));
           (units "result",
            JObj [(units "text",
                   JStr [0x0E2A; 0x0E27; 0x0E31; 0x0E2A; 0x0E14; 0x0E35])])]] /\
  decoded_reads fresh [firstn 30 sawasdee; skipn 30 sawasdee] = [] /\
  decoded_reads fresh (map (fun b => [b]) sawasdee) = [] /\
  transcription (snd (on_reads fresh [sawasdee] initial)) =
    JStr [0x0E2A; 0x0E27; 0x0E31; 0x0E2A; 0x0E14; 0x0E35] /\
  transcription
    (snd (on_reads fresh [firstn 30 sawasdee; skipn 30 sawasdee] initial)) =
    JStr [].
Proof. vm_compute. repeat split; reflexivity. Qed.

(** C1, amended: when every read but the last ends with a line feed (or
    is empty) and no line follows an error event, the reads decode to the
    same events, and leave the same component and decoder, as the same
    bytes delivered in a single read. *)
Theorem C1_line_aligned_reads (values : list (list byte)) (c : Component) :
  line_aligned values = true ->
  error_ends (lines_of (fst (decode fresh (concat values)))) = true ->
  decoded_reads fresh values = decoded_reads fresh [concat values] /\
  on_reads fresh values c = on_reads fresh [concat values] c.
Proof. apply reads_aligned, well_formed_fresh. Qed.

Lemma C1_line_aligned_reads_witness :
  let values := [json "{'status':'processing'}" ++ LF;
                 json "not json" ++ LF ++
                 json "{'status':'complete','result':{'text':'ok'}}" ++ LF;
                 json "{'status':'error','message':'late'}"] in
  decoded_reads fresh values = decoded_reads fresh [concat values] /\
  on_reads fresh values initial = on_reads fresh [concat values] initial.
Proof.
  intros values. apply (C1_line_aligned_reads values initial); reflexivity.
Defined.

(** C7: a line that is not a JSON object, between two line feeds of a
    chunk, is skipped: the loop goes on as if the line were not there, so
    the lines after it are decoded and applied. *)
Theorem C7_malformed_line_is_skipped (before bad after : jsstring)
  (c : Component) :
  existsb (N.eqb 0x0A) bad = false ->
  not_an_object bad ->
  for_lines (lines_of (before ++ 0x0A :: bad ++ 0x0A :: after)) c =
  for_lines (lines_of (before ++ 0x0A :: after)) c.
Proof.
  intros Hnl Hbad. rewrite !lines_of_app, app_assoc.
  assert (Hone : split_newline bad = [bad]).
  { apply split_newline_one. apply List.Forall_forall. intros u Hu ->.
    assert (Hex : existsb (N.eqb 10) bad = true).
    { apply existsb_exists. exists 10. split; [exact Hu | reflexivity]. }
    rewrite Hex in Hnl. discriminate. }
  unfold lines_of at 2. rewrite Hone. cbn [List.filter].
  destruct (ToBoolean (JStr (trim bad))).
  - rewrite <- app_assoc. cbn [app]. apply for_lines_skip, Hbad.
  - rewrite app_nil_r. reflexivity.
Qed.

Lemma C7_malformed_line_is_skipped_witness :
  for_lines
    (lines_of (text "{'status':'processing'}" ++ 0x0A ::
               text "not json" ++ 0x0A ::
               text "{'status':'complete','result':{'text':'ok'}}")) initial =
  for_lines
    (lines_of (text "{'status':'processing'}" ++ 0x0A ::
               text "{'status':'complete','result':{'text':'ok'}}")) initial.
Proof.
  apply C7_malformed_line_is_skipped; [reflexivity | exact I].
Defined.

End FrameDecoder.

(** ** The reconciler: one event at a time *)

Section Reconciler.

Implicit Types (c : Component) (line : jsstring) (data : jsval).

Lemma complete_not_error data t :
  complete_text data = Some t -> is_error_event data = false.
Proof.
  unfold complete_text, is_error_event.
  destruct (Get data (units "status")) as [st|]; [|discriminate].
  unfold strict_eq_lit. destruct st as [| | | |s| |]; try discriminate.
  destruct (bool_decide (s = units "complete")) eqn:Hs; [|discriminate].
  apply bool_decide_eq_true in Hs. subst s. reflexivity.
Qed.

Lemma on_line_complete line data t c :
  JSON.parse line = Some data -> complete_text data = Some t ->
  on_line line c = Normal (setTranscription t c).
Proof.
  intros Hp Ht. rewrite on_line_apply, Hp. unfold apply_event.
  rewrite (complete_not_error _ _ Ht), Ht. reflexivity.
Qed.

Lemma on_line_error line data c :
  JSON.parse line = Some data -> is_error_event data = true ->
  on_line line c =
  Break (setError (default JUndefined (Get data (units "message"))) c).
Proof.
  intros Hp He. rewrite on_line_apply, Hp, He. unfold apply_event.
  rewrite He. reflexivity.
Qed.

(** C8: a line whose status is [processing] leaves the component as it
    is, the transcription text included. *)
Theorem C8_processing_event_changes_nothing line data c :
  JSON.parse line = Some data ->
  Get data (units "status") = Some (JStr (units "processing")) ->
  on_line line c = Normal c /\
  transcription (apply_event c data) = transcription c.
Proof.
  intros Hp Hs. rewrite on_line_apply, Hp.
  unfold apply_event, is_error_event, complete_text. rewrite Hs.
  split; reflexivity.
Qed.

Lemma C8_processing_event_changes_nothing_witness :
  on_line (text "{'status':'processing','message':'working'}")
    (setTranscription (JStr (units "so far")) initial) =
    Normal (setTranscription (JStr (units "so far")) initial) /\
  transcription
    (apply_event (setTranscription (JStr (units "so far")) initial)
       (JObj [(units "status", JStr (units "processing"));
              (units "message", JStr (units "working"))])) =
  JStr (units "so far").
Proof.
  apply (C8_processing_event_changes_nothing
           (text "{'status':'processing','message':'working'}"));
    reflexivity.
Defined.

(** C10, as stated, fails for a result that is not an object: the guard
    is [data.result], so any truthy result passes it.  With the result
    [true], or [5], the event is not ignored: the text read from it is
    [undefined] and the transcription is set to the empty string. *)
Lemma C10_truthy_result_is_not_ignored :
  let c := setTranscription (JStr (units "so far")) initial in
  on_line (text "{'status':'complete','result':true}") c =
    Normal (setTranscription (JStr []) c) /\
  on_line (text "{'status':'complete','result':5}") c =
    Normal (setTranscription (JStr []) c) /\
  transcription (setTranscription (JStr []) c) <> transcription c.
Proof. vm_compute. repeat split; discriminate. Qed.

(** C10, amended: a [complete] event whose [result] is absent or falsy
    ([null], [false], zero, the empty string) leaves the component as it
    is, text and error included.  One whose [result] is truthy, an
    object or not, sets the text: to the empty string when the [text] of
    the result is absent or falsy, and to that [text] otherwise. *)
Theorem C10_complete_event line data c :
  JSON.parse line = Some data ->
  Get data (units "status") = Some (JStr (units "complete")) ->
  exists result,
    Get data (units "result") = Some result /\
    (ToBoolean result = false -> on_line line c = Normal c) /\
    (ToBoolean result = true ->
     exists t,
       Get result (units "text") = Some t /\
       (ToBoolean t = false ->
        on_line line c = Normal (setTranscription (JStr []) c)) /\
       (ToBoolean t = true ->
        on_line line c = Normal (setTranscription t c))).
Proof.
  intros Hp Hs. rewrite on_line_apply, Hp.
  unfold apply_event, is_error_event, complete_text. rewrite Hs.
  assert (Hres : exists result, Get data (units "result") = Some result).
  { destruct data; try discriminate Hs; eexists; reflexivity. }
  destruct Hres as [result Hres]. exists result. rewrite Hres.
  cbn [strict_eq_lit default from_option id].
  split; [reflexivity|]. split.
  - intros ->. reflexivity.
  - intros Ht. rewrite Ht.
    assert (Htext : exists t, Get result (units "text") = Some t).
    { destruct result; try discriminate Ht; eexists; reflexivity. }
    destruct Htext as [t Htext]. exists t. rewrite Htext.
    cbn [default from_option id].
    split; [reflexivity|]. split; intros ->; reflexivity.
Qed.

Lemma C10_complete_event_witness :
  let c := setError (JStr (units "old"))
             (setTranscription (JStr (units "so far")) initial) in
  on_line (text "{'status':'complete'}") c = Normal c /\
  on_line (text "{'status':'complete','result':null}") c = Normal c /\
  on_line (text "{'status':'complete','result':{}}") c =
    Normal (setTranscription (JStr []) c) /\
  on_line (text "{'status':'complete','result':{'text':''}}") c =
    Normal (setTranscription (JStr []) c) /\
  on_line (text "{'status':'complete','result':{'text':'ok'}}") c =
    Normal (setTranscription (JStr (units "ok")) c).
Proof.
  intros c.
  destruct (C10_complete_event (text "{'status':'complete'}")
              (JObj [(units "status", JStr (units "complete"))]) c
              eq_refl eq_refl) as (r1 & G1 & I1 & _).
  destruct (C10_complete_event (text "{'status':'complete','result':null}")
              (JObj [(units "status", JStr (units "complete"));
                     (units "result", JNull)]) c
              eq_refl eq_refl) as (r2 & G2 & I2 & _).
  destruct (C10_complete_event (text "{'status':'complete','result':{}}")
              (JObj [(units "status", JStr (units "complete"));
                     (units "result", JObj [])]) c
              eq_refl eq_refl) as (r3 & G3 & _ & S3).
  destruct (C10_complete_event
              (text "{'status':'complete','result':{'text':''}}")
              (JObj [(units "status", JStr (units "complete"));
                     (units "result", JObj [(units "text", JStr [])])]) c
              eq_refl eq_refl) as (r4 & G4 & _ & S4).
  destruct (C10_complete_event
              (text "{'status':'complete','result':{'text':'ok'}}")
              (JObj [(units "status", JStr (units "complete"));
                     (units "result",
                      JObj [(units "text", JStr (units "ok"))])]) c
              eq_refl eq_refl) as (r5 & G5 & _ & S5).
  injection G1 as <-. injection G2 as <-. injection G3 as <-.
  injection G4 as <-. injection G5 as <-.
  destruct (S3 eq_refl) as (t3 & T3 & E3 & _). injection T3 as <-.
  destruct (S4 eq_refl) as (t4 & T4 & E4 & _). injection T4 as <-.
  destruct (S5 eq_refl) as (t5 & T5 & _ & E5). injection T5 as <-.
  exact (conj (I1 eq_refl)
           (conj (I2 eq_refl)
              (conj (E3 eq_refl) (conj (E4 eq_refl) (E5 eq_refl))))).
Defined.

End Reconciler.

(** ** Responses in the event loop *)

Section Responses.

Implicit Types (w : World) (r : Request) (d : TextDecoder.t).

Lemma run_cons e es w w1 :
  step e w = Some w1 -> run (e :: es) w = run es w1.
Proof. intros H. cbn [run]. rewrite H. reflexivity. Qed.

Lemma step_ReadValue w id r d value :
  requests w !! id = Some r -> req_phase r = AwaitRead d ->
  step (ReadValue id value) w =
  Some (with_requests
          <[id := mkRequest (req_callback r) (req_final r) (req_body r)
                    (AwaitRead (snd (TextDecoder.decode d value)))]>
          (with_ui
             (fun _ => for_lines
                         (lines_of (fst (TextDecoder.decode d value)))
                         (ui w)) w)).
Proof.
  intros Hr Hp. unfold step. rewrite Hr. cbn. rewrite Hp, on_read_unfold.
  reflexivity.
Qed.

Lemma apply_event_text c data :
  transcription (apply_event c data) = text_after [data] (transcription c).
Proof.
  unfold apply_event. cbn [text_after].
  destruct (is_error_event data) eqn:He.
  - destruct (complete_text data) as [t|] eqn:Ht; [|reflexivity].
    rewrite (complete_not_error _ _ Ht) in He. discriminate.
  - destruct (complete_text data); reflexivity.
Qed.

Lemma fold_apply_event_text events c :
  transcription (fold_left apply_event events c) =
  text_after events (transcription c).
Proof.
  revert c. induction events as [|data rest IH]; intros c; [reflexivity|].
  cbn [fold_left text_after]. rewrite IH, apply_event_text. reflexivity.
Qed.

Lemma text_after_last events before :
  text_after events before = default before (last_text events).
Proof.
  revert before. induction events as [|data rest IH]; intros before;
    [reflexivity|].
  cbn [text_after last_text]. rewrite IH.
  destruct (last_text rest); [reflexivity|].
  destruct (complete_text data); reflexivity.
Qed.

Lemma read_text w id r d value :
  requests w !! id = Some r -> req_phase r = AwaitRead d ->
  exists w',
    step (ReadValue id value) w = Some w' /\
    transcription (ui w') =
      text_after (read_events d value) (transcription (ui w)) /\
    forall j, j <> id -> requests w' !! j = requests w !! j.
Proof.
  intros Hr Hp. rewrite (step_ReadValue _ _ _ _ _ Hr Hp).
  eexists. split; [reflexivity|]. cbn.
  rewrite for_lines_decoded, fold_apply_event_text.
  split; [reflexivity|]. intros j Hj. apply lookup_insert_ne. congruence.
Qed.

(** C2, amended: nothing compares the requests.  A read applies the
    [complete] events with a result among its lines, up to the first
    error event, each replacing the text of the one before.  Of two
    requests in flight, issued in the order [a], [b], the text shown
    after a read of each is decided by the order in which the reads are
    handled, not by the order of issue: it is the text of the last
    [complete] event applied in the read handled second, or, when that
    read applies none, in the read handled first, or, when neither does,
    the text shown before.  So [b]'s text stands when [b]'s read is
    handled second, and [a]'s replaces it when [a]'s is. *)
Theorem C2_last_arrival_wins w (a b : nat) ra rb da db va vb :
  (a < b)%nat ->
  requests w !! a = Some ra -> req_phase ra = AwaitRead da ->
  requests w !! b = Some rb -> req_phase rb = AwaitRead db ->
  (exists w', run [ReadValue a va; ReadValue b vb] w = Some w' /\
              transcription (ui w') =
                default (default (transcription (ui w))
                           (last_text (read_events da va)))
                  (last_text (read_events db vb))) /\
  (exists w', run [ReadValue b vb; ReadValue a va] w = Some w' /\
              transcription (ui w') =
                default (default (transcription (ui w))
                           (last_text (read_events db vb)))
                  (last_text (read_events da va))).
Proof.
  intros Hab Ha Hpa Hb Hpb. split.
  - destruct (read_text _ _ _ _ va Ha Hpa) as (w1 & Hs1 & Ht1 & Hreq1).
    rewrite <- (Hreq1 b) in Hb by lia.
    destruct (read_text _ _ _ _ vb Hb Hpb) as (w2 & Hs2 & Ht2 & _).
    exists w2. rewrite (run_cons _ _ _ _ Hs1), (run_cons _ _ _ _ Hs2).
    rewrite Ht2, Ht1, !text_after_last. split; reflexivity.
  - destruct (read_text _ _ _ _ vb Hb Hpb) as (w1 & Hs1 & Ht1 & Hreq1).
    rewrite <- (Hreq1 a) in Ha by lia.
    destruct (read_text _ _ _ _ va Ha Hpa) as (w2 & Hs2 & Ht2 & _).
    exists w2. rewrite (run_cons _ _ _ _ Hs1), (run_cons _ _ _ _ Hs2).
    rewrite Ht2, Ht1, !text_after_last. split; reflexivity.
Qed.

End Responses.

(** ** Sessions run from the start *)

Section Runs.

Lemma C2_last_arrival_wins_witness :
  let va := json "{'status':'processing'}" ++ LF ++ complete_line "first" in
  let vb := complete_line "draft" ++ complete_line "second" ++
            json "{'status':'error','message':'busy'}" ++ LF ++
            complete_line "unseen" in
  last_text (read_events TextDecoder.fresh va) = Some (JStr (units "first")) /\
  last_text (read_events TextDecoder.fresh vb) = Some (JStr (units "second")) /\
  (exists w', run [ReadValue 3 va; ReadValue 4 vb] (after two_open)
              = Some w' /\
              transcription (ui w') =
                default (default (transcription (ui (after two_open)))
                           (last_text (read_events TextDecoder.fresh va)))
                  (last_text (read_events TextDecoder.fresh vb))) /\
  (exists w', run [ReadValue 4 vb; ReadValue 3 va] (after two_open)
              = Some w' /\
              transcription (ui w') =
                default (default (transcription (ui (after two_open)))
                           (last_text (read_events TextDecoder.fresh vb)))
                  (last_text (read_events TextDecoder.fresh va))).
Proof.
  intros va vb.
  split; [vm_compute; reflexivity|]. split; [vm_compute; reflexivity|].
  apply (C2_last_arrival_wins (after two_open) 3 4
           (mkRequest (mkCallback sample_props false) false
              (mkFormData audio (units "key") true (units "auto") true)
              (AwaitRead TextDecoder.fresh))
           (mkRequest (mkCallback sample_props false) false
              (mkFormData audio (units "key") true (units "auto") true)
              (AwaitRead TextDecoder.fresh))
           TextDecoder.fresh TextDecoder.fresh va vb);
    first [lia | vm_compute; reflexivity].
Defined.

(** C2, as stated, fails: requests carry no sequence number and nothing
    compares them.  Request 3 is periodic, request 4 is the final one
    issued after it; the final result is applied and shown, and the
    [complete] event of request 3, arriving afterwards, replaces it. *)
Lemma C2_stale_complete_overwrites :
  run final_first (boot sample_props) = Some (after final_first) /\
  option_map req_final
    (requests (after (recording ++ [Tick 2; ClickStop;
                                    RecorderStopped 1 []])) !! 4%nat)
    = Some true /\
  option_map req_final (requests (after final_first) !! 3%nat) = Some false /\
  transcription (ui (after final_first)) = JStr (units "final") /\
  option_map (fun w => transcription (ui w))
    (step (ReadValue 3 (complete_line "stale")) (after final_first))
    = Some (JStr (units "stale")).
Proof. vm_compute. repeat split; reflexivity. Qed.

(** C3 at the failing input: the session is recording and request 3 is a
    periodic one, yet a rejected [fetch] and a non-success status both
    put their message in the error field.  The [isRecording] that the
    [catch] tests is the one of the callback the timer holds, made by the
    render in which "Start Recording" was clicked. *)
Theorem C3_periodic_failure_is_shown :
  run ticked (boot sample_props) = Some (after ticked) /\
  isRecording (ui (after ticked)) = true /\
  option_map req_final (requests (after ticked) !! 3%nat) = Some false /\
  error (ui (after ticked)) = JNull /\
  option_map (fun w => (isRecording (ui w), error (ui w)))
    (step (FetchFailed 3 (AnError (units "Failed to fetch"))) (after ticked))
    = Some (true, JStr (units "Failed to fetch")) /\
  option_map (fun w => (isRecording (ui w), error (ui w)))
    (step (FetchResponded 3 500) (after ticked))
    = Some (true, JStr (units "HTTP error! status: 500")).
Proof. vm_compute. repeat split; reflexivity. Qed.

(** C5, as stated, fails: the [error] branch of the loop does not look at
    which request it serves.  An [error] event on periodic request 3,
    while recording, sets the error field. *)
Lemma C5_periodic_error_event_is_shown :
  run periodic_open (boot sample_props) = Some (after periodic_open) /\
  isRecording (ui (after periodic_open)) = true /\
  option_map req_final (requests (after periodic_open) !! 3%nat)
    = Some false /\
  error (ui (after periodic_open)) = JNull /\
  option_map (fun w => (isRecording (ui w), error (ui w)))
    (step (ReadValue 3 (json "{'status':'error','message':'boom'}" ++ LF))
       (after periodic_open))
    = Some (true, JStr (units "boom")).
Proof. vm_compute. repeat split; reflexivity. Qed.

(** C6, as stated, fails: the end of a stream is the [done] branch, which
    leaves the loop and nothing else.  The final request's stream ends
    without any event and the error field stays empty. *)
Lemma C6_silent_end_of_final_stream :
  run final_open (boot sample_props) = Some (after final_open) /\
  option_map req_final (requests (after final_open) !! 3%nat) = Some true /\
  option_map (fun w => (error (ui w), transcription (ui w), status (ui w)))
    (step (ReadDone 3) (after final_open))
    = Some (JNull, JStr [], "idle"%string).
Proof. vm_compute. repeat split; reflexivity. Qed.

End Runs.

(** ** Errors and ends of streams *)

Section Errors.

Implicit Types (w : World) (r : Request) (d : TextDecoder.t)
  (c : Component).

Lemma for_lines_first_error pre line post data c :
  existsb is_error_line pre = false ->
  JSON.parse line = Some data -> is_error_event data = true ->
  error (for_lines (pre ++ line :: post) c) =
  default JUndefined (Get data (units "message")).
Proof.
  intros Hpre Hp He. revert c Hpre.
  induction pre as [|l pre IH]; intros c Hpre; cbn [app for_lines].
  - rewrite (on_line_error _ _ _ Hp He). reflexivity.
  - cbn [existsb] in Hpre. apply orb_false_iff in Hpre as [Hl Hpre].
    destruct (is_error_line_false l c Hl) as [c' ->]. apply IH, Hpre.
Qed.

(** C5, amended: an [error] event sets the error field to its [message]
    on whatever request it arrives, periodic or final, recording or not;
    the lines before it in the read are handled, those after it are
    not. *)
Theorem C5_error_event_is_shown w id r d value pre line post data :
  requests w !! id = Some r -> req_phase r = AwaitRead d ->
  lines_of (fst (TextDecoder.decode d value)) = pre ++ line :: post ->
  existsb is_error_line pre = false ->
  JSON.parse line = Some data -> is_error_event data = true ->
  exists w',
    step (ReadValue id value) w = Some w' /\
    error (ui w') = default JUndefined (Get data (units "message")) /\
    ui w' = for_lines (pre ++ [line]) (ui w).
Proof.
  intros Hr Hph Hl Hpre Hp He.
  rewrite (step_ReadValue _ _ _ _ _ Hr Hph). eexists. split; [reflexivity|].
  cbn [ui with_ui with_requests]. rewrite Hl. split.
  - apply (for_lines_first_error _ _ _ _ _ Hpre Hp He).
  - clear Hl. generalize (ui w) as c.
    induction pre as [|l pre IH]; intros c; cbn [app for_lines].
    + rewrite (on_line_error _ _ _ Hp He). reflexivity.
    + cbn [existsb] in Hpre. apply orb_false_iff in Hpre as [Hl Hpre].
      destruct (is_error_line_false l c Hl) as [c' ->]. apply IH, Hpre.
Qed.

Lemma C5_error_event_is_shown_witness :
  exists w',
    step (ReadValue 3
            (json "{'status':'processing'}" ++ LF ++
             json "{'status':'error','message':'boom'}" ++ LF ++
             json "{'status':'complete','result':{'text':'late'}}" ++ LF))
      (after periodic_open) = Some w' /\
    error (ui w') =
      default JUndefined
        (Get (JObj [(units "status", JStr (units "error"));
                    (units "message", JStr (units "boom"))])
           (units "message")) /\
    ui w' =
      for_lines
        ([text "{'status':'processing'}"] ++
         [text "{'status':'error','message':'boom'}"])
        (ui (after periodic_open)).
Proof.
  apply (C5_error_event_is_shown (after periodic_open) 3
           (mkRequest (mkCallback sample_props false) false
              (mkFormData audio (units "key") true (units "auto") true)
              (AwaitRead TextDecoder.fresh))
           TextDecoder.fresh _
           [text "{'status':'processing'}"]
           (text "{'status':'error','message':'boom'}")
           [text "{'status':'complete','result':{'text':'late'}}"]);
    reflexivity.
Defined.

(** C6, amended: the end of a response stream is a normal return of
    [processAudioChunks], whether or not a terminal event came before it.
    It leaves the error field and the text as they are, on the final
    request as on a periodic one, and on the final request it sets the
    status to idle. *)
Theorem C6_end_of_stream_is_silent w id r d :
  requests w !! id = Some r -> req_phase r = AwaitRead d ->
  exists w',
    step (ReadDone id) w = Some w' /\
    error (ui w') = error (ui w) /\
    transcription (ui w') = transcription (ui w) /\
    requests w' !! id = None /\
    (req_final r = true -> status (ui w') = "idle"%string).
Proof.
  intros Hr Hph. unfold step. rewrite Hr. cbn. rewrite Hph.
  eexists. split; [reflexivity|]. unfold returned, onstop_finally. cbn.
  destruct (req_final r); cbn; rewrite lookup_delete_eq; repeat split;
    auto; discriminate.
Qed.

Lemma C6_end_of_stream_is_silent_witness :
  exists w',
    step (ReadDone 3) (after final_open) = Some w' /\
    error (ui w') = error (ui (after final_open)) /\
    transcription (ui w') = transcription (ui (after final_open)) /\
    requests w' !! 3%nat = None /\
    (true = true -> status (ui w') = "idle"%string).
Proof.
  apply (C6_end_of_stream_is_silent (after final_open) 3
           (mkRequest (mkCallback sample_props false) true
              (mkFormData audio (units "key") true (units "auto") true)
              (AwaitRead TextDecoder.fresh))
           TextDecoder.fresh);
    reflexivity.
Defined.

End Errors.

(** ** Starting and stopping *)

Section Lifecycle.

Implicit Types (w : World) (c : Component) (e : event).

Lemma for_lines_same_session lines c : same_session c (for_lines lines c).
Proof.
  revert c. induction lines as [|line rest IH]; intros c.
  - repeat split.
  - cbn [for_lines]. rewrite on_line_apply.
    assert (Hev : forall data, same_session c (apply_event c data)).
    { intros data. unfold apply_event.
      destruct (is_error_event data); [repeat split|].
      destruct (complete_text data); repeat split. }
    destruct (JSON.parse line) as [data|]; [|apply IH].
    destruct (is_error_event data); [apply Hev|].
    specialize (IH (apply_event c data)). specialize (Hev data).
    unfold same_session in *. intuition congruence.
Qed.

Lemma ondataavailable_same_session data c :
  isRecording (ondataavailable data c) = isRecording c /\
  status (ondataavailable data c) = status c.
Proof. destruct data; split; reflexivity. Qed.

Lemma on_catch_same_session cb err c :
  isRecording (on_catch cb err c) = isRecording c /\
  status (on_catch cb err c) = status c.
Proof. unfold on_catch. destruct (negb _); split; reflexivity. Qed.

Ltac step_inv H :=
  unfold step in H;
  repeat match type of H with
         | (?m ≫= _) = Some _ =>
             let E := fresh "E" in
             destruct m eqn:E; cbn [mbind option_bind] in H;
             [|discriminate H]
         | (if ?b then _ else _) = Some _ =>
             let E := fresh "E" in destruct b eqn:E; try discriminate H
         | match ?x with _ => _ end = Some _ =>
             let E := fresh "E" in destruct x eqn:E; try discriminate H
         end;
  try (injection H as H; subst).

Lemma quiet_step e w w' :
  quiet w -> e <> ClickStart -> step e w = Some w' ->
  quiet w' /\ (forall tid, e <> Tick tid) /\
  (status (ui w') = status (ui w) \/ status (ui w') = "idle"%string) /\
  (timeouts w' = timeouts w \/
   e = TimeoutFired /\ status (ui w') = "idle"%string).
Proof.
  intros (Hacq & Hint & Hrec) Hne Hstep. unfold quiet.
  destruct e; try congruence.
  - unfold step in Hstep. rewrite Hacq, lookup_empty in Hstep. discriminate.
  - step_inv Hstep. cbn.
    destruct (ondataavailable_same_session data (ui w)) as [-> ->].
    repeat split; auto; discriminate.
  - unfold step in Hstep. rewrite Hint, lookup_empty in Hstep. discriminate.
  - unfold step, shows_stop in Hstep. rewrite Hrec in Hstep. discriminate.
  - step_inv Hstep. unfold onstop, processAudioChunks. cbn.
    destruct (ondataavailable_same_session data (ui w)) as [Hr Hs].
    destruct (audioChunksRef (ondataavailable data (ui w))); cbn;
      rewrite ?Hr, ?Hs; repeat split; auto; discriminate.
  - step_inv Hstep. cbn. repeat split; auto; discriminate.
  - step_inv Hstep. unfold returned, onstop_finally. cbn.
    destruct (on_catch_same_session (req_callback r) err (ui w)) as [Hr Hs].
    destruct (req_final r); cbn; rewrite ?Hr, ?Hs;
      repeat split; auto; discriminate.
  - step_inv Hstep.
    + unfold returned, onstop_finally. cbn.
      destruct (on_catch_same_session (req_callback r) no_reader (ui w))
        as [Hr Hs].
      destruct (req_final r); cbn; rewrite ?Hr, ?Hs;
        repeat split; auto; discriminate.
    + cbn. repeat split; auto; discriminate.
    + unfold returned, onstop_finally. cbn.
      destruct (on_catch_same_session (req_callback r) (http_error code)
                  (ui w)) as [Hr Hs].
      destruct (req_final r); cbn; rewrite ?Hr, ?Hs;
        repeat split; auto; discriminate.
  - step_inv Hstep. rewrite on_read_unfold in E1. injection E1 as <- <-.
    cbn. destruct (for_lines_same_session
                     (lines_of (fst (TextDecoder.decode decoder value)))
                     (ui w)) as (Hr & _ & Hs & _).
    rewrite Hr, Hs. repeat split; auto; discriminate.
  - step_inv Hstep. unfold returned, onstop_finally. cbn.
    destruct (req_final r); cbn; repeat split; auto; discriminate.
  - step_inv Hstep. unfold returned, onstop_finally. cbn.
    destruct (on_catch_same_session (req_callback r) err (ui w)) as [Hr Hs].
    destruct (req_final r); cbn; rewrite ?Hr, ?Hs;
      repeat split; auto; discriminate.
Qed.

Lemma session_run_run es w w' :
  session_run es w = Some w' -> run es w = Some w'.
Proof.
  revert w. induction es as [|e es IH]; intros w; [trivial|].
  cbn [session_run run].
  destruct (session_step e w) as [w1|] eqn:Hstep; [|discriminate].
  assert (Hs : step e w = Some w1).
  { destruct e; try exact Hstep. unfold session_step in Hstep.
    case_bool_decide; [exact Hstep | discriminate]. }
  rewrite Hs. apply IH.
Qed.

Lemma run_reachable p es w w' :
  reachable p w -> run es w = Some w' -> reachable p w'.
Proof.
  revert w. induction es as [|e es IH]; intros w Hw Hrun.
  - injection Hrun as <-. exact Hw.
  - cbn [run] in Hrun. destruct (step e w) as [w1|] eqn:Hstep; [|discriminate].
    exact (IH w1 (reachable_step p e w w1 Hw Hstep) Hrun).
Qed.

(** While no new session is started, a quiet component stays quiet, its
    timer never fires, and its status can only move to idle. *)
Lemma quiet_run es w w' :
  quiet w -> Forall (fun e => e <> ClickStart) es -> run es w = Some w' ->
  quiet w' /\ Forall (fun e => forall tid, e <> Tick tid) es /\
  (status (ui w) = "idle"%string \/ (1 <= timeouts w)%nat ->
   status (ui w') = "idle"%string \/ (1 <= timeouts w')%nat) /\
  (status (ui w) = "idle"%string -> status (ui w') = "idle"%string) /\
  (In TimeoutFired es -> status (ui w') = "idle"%string).
Proof.
  intros Hq Hes. revert w Hq.
  induction Hes as [|e es He _ IH]; intros w Hq Hrun.
  - injection Hrun as <-.
    split; [exact Hq|]. split; [constructor|]. split; [auto|].
    split; [auto|]. intros [].
  - cbn [run] in Hrun. destruct (step e w) as [w1|] eqn:Hstep;
      [|discriminate].
    cbn [mbind option_bind] in Hrun.
    destruct (quiet_step _ _ _ Hq He Hstep) as (Hq1 & Htick & Hst & Hto).
    destruct (IH w1 Hq1 Hrun) as (Hq' & Hticks & Hpend & Hidle & Hfired).
    split; [exact Hq'|]. split; [constructor; assumption|].
    split; [|split].
    + intros Hw. apply Hpend.
      destruct Hto as [Hto|[_ Hto]]; [|left; exact Hto].
      destruct Hst as [Hst|Hst]; [|left; exact Hst].
      rewrite Hst, Hto. exact Hw.
    + intros Hw. apply Hidle. destruct Hst as [Hst|Hst]; congruence.
    + intros [->|Hin]; [|auto]. apply Hidle.
      step_inv Hstep. reflexivity.
Qed.

(** In a recording session whose timer is the one armed timer and whose
    recorder is active, [stopRecording] leaves no timer armed, and none
    is armed again before a new start. *)
Lemma stop_disarms w rid r tid cb es w' :
  isRecording (ui w) = true ->
  mediaRecorderRef (ui w) = Some rid -> recorders w !! rid = Some r ->
  rec_active r = true ->
  processingIntervalRef (ui w) = Some tid -> intervals w = {[tid := cb]} ->
  acquiring w = ∅ ->
  Forall (fun e => e <> ClickStart) es ->
  run (ClickStop :: es) w = Some w' ->
  step ClickStop w = Some (stopRecording w) /\
  intervals (stopRecording w) = ∅ /\
  processingIntervalRef (ui (stopRecording w)) = None /\
  Forall (fun e => forall t, e <> Tick t) es /\
  intervals w' = ∅ /\
  (status (ui w') = "idle"%string \/
   exists w'', step TimeoutFired w' = Some w'' /\
               status (ui w'') = "idle"%string) /\
  (In TimeoutFired es -> status (ui w') = "idle"%string).
Proof.
  intros Hrec Href Hr Hact Htid Hint Hacq Hes Hrun.
  assert (Hstep : step ClickStop w = Some (stopRecording w)).
  { unfold step, shows_stop. rewrite Hrec. reflexivity. }
  rewrite (run_cons _ _ _ _ Hstep) in Hrun.
  assert (Hstop : quiet (stopRecording w) /\
                  (1 <= timeouts (stopRecording w))%nat /\
                  processingIntervalRef (ui (stopRecording w)) = None).
  { unfold stopRecording, quiet. rewrite Href, Hr, Hact. cbn.
    rewrite Htid. cbn. rewrite Hint, delete_singleton_eq.
    repeat split; auto. lia. }
  destruct Hstop as (Hq & Hto & Hnone).
  destruct (quiet_run _ _ _ Hq Hes Hrun)
    as ((_ & Hint' & _) & Hticks & Hpend & _ & Hfired).
  repeat split; auto; [apply Hq|].
  destruct Hpend as [Hidle|Hpending]; [right; exact Hto | left; exact Hidle |].
  right. unfold step. destruct (timeouts w'); [lia|].
  eexists. split; reflexivity.
Qed.

(** A start with nothing else in between.  From the idle component,
    [startRecording] clears the text, the error and the captured chunks
    and waits for the microphone.  When the microphone is refused, the
    error field shows the message of the rejection, or the fixed message
    when what was thrown is not an [Error], and the component is idle,
    not recording, with no timer armed; when it is granted, the component
    is recording with the timer armed, and text, error and chunks are
    still clear. *)
Theorem start_from_idle w :
  isRecording (ui w) = false -> status (ui w) = "idle"%string ->
  exists w1,
    step ClickStart w = Some w1 /\
    transcription (ui w1) = JStr [] /\ error (ui w1) = JNull /\
    audioChunksRef (ui w1) = [] /\ status (ui w1) = "idle"%string /\
    (forall err, exists w2,
       step (MediaSettled (next w) (Refused err)) w1 = Some w2 /\
       error (ui w2) =
         JStr match err with
              | AnError m => m
              | NotAnError => units "An unknown error occurred"
              end /\
       status (ui w2) = "idle"%string /\ isRecording (ui w2) = false /\
       isStreaming (ui w2) = false /\
       intervals w2 = intervals w /\ recorders w2 = recorders w /\
       processingIntervalRef (ui w2) = processingIntervalRef (ui w)) /\
    (exists w2,
       step (MediaSettled (next w) Granted) w1 = Some w2 /\
       status (ui w2) = "recording"%string /\ isRecording (ui w2) = true /\
       audioChunksRef (ui w2) = [] /\
       transcription (ui w2) = JStr [] /\ error (ui w2) = JNull /\
       processingIntervalRef (ui w2) = Some (S (S (next w))) /\
       intervals w2 !! S (S (next w)) = Some (current_callback w)).
Proof.
  intros Hrec Hst. exists (startRecording w).
  split; [unfold step, shows_start; rewrite Hrec, Hst; reflexivity|].
  unfold startRecording. cbn. rewrite Hst.
  repeat split; try reflexivity.
  - intros err. rewrite lookup_insert_eq. cbn. eexists.
    split; [reflexivity|]. cbn.
    repeat split; try reflexivity; [destruct err; reflexivity | exact Hst].
  - rewrite lookup_insert_eq. cbn. eexists.
    split; [reflexivity|]. cbn. rewrite lookup_insert_eq.
    repeat split; reflexivity.
Qed.

Lemma start_from_idle_witness :
  exists w1,
    step ClickStart (boot sample_props) = Some w1 /\
    transcription (ui w1) = JStr [] /\ error (ui w1) = JNull /\
    audioChunksRef (ui w1) = [] /\ status (ui w1) = "idle"%string /\
    (forall err, exists w2,
       step (MediaSettled 0 (Refused err)) w1 = Some w2 /\
       error (ui w2) =
         JStr match err with
              | AnError m => m
              | NotAnError => units "An unknown error occurred"
              end /\
       status (ui w2) = "idle"%string /\ isRecording (ui w2) = false /\
       isStreaming (ui w2) = false /\
       intervals w2 = ∅ /\ recorders w2 = ∅ /\
       processingIntervalRef (ui w2) = None) /\
    (exists w2,
       step (MediaSettled 0 Granted) w1 = Some w2 /\
       status (ui w2) = "recording"%string /\ isRecording (ui w2) = true /\
       audioChunksRef (ui w2) = [] /\
       transcription (ui w2) = JStr [] /\ error (ui w2) = JNull /\
       processingIntervalRef (ui w2) = Some 2%nat /\
       intervals w2 !! 2%nat = Some (mkCallback sample_props false)).
Proof. apply (start_from_idle (boot sample_props)); reflexivity. Defined.

(** C9 at the failing input: "Start Recording" is clicked twice before
    the microphone answers, which the render allows because the button
    changes only after the answer; the first request is granted and the
    second refused.  The second click found the component idle, and its
    refusal is shown, but the component is not idle afterwards: the
    status is recording, recorder 2 is active and timer 3 is armed,
    while the [catch] has cleared [isRecording], so that the render
    offers "Start Recording" and no "Stop Recording". *)
Theorem C9_refused_start_leaves_recording :
  status (ui (after [ClickStart])) = "idle"%string /\
  shows_start (ui (after [ClickStart])) = true /\
  run refused_second (boot sample_props) = Some (after refused_second) /\
  error (ui (after refused_second)) = JStr (units "Permission denied") /\
  status (ui (after refused_second)) = "recording"%string /\
  isRecording (ui (after refused_second)) = false /\
  shows_stop (ui (after refused_second)) = false /\
  shows_start (ui (after refused_second)) = true /\
  option_map rec_active (recorders (after refused_second) !! 2%nat)
    = Some true /\
  intervals (after refused_second) = {[3%nat := mkCallback sample_props false]}.
Proof. vm_compute. repeat split; reflexivity. Qed.

Lemma made_idle_processAudioChunks cb final w :
  cb_isRecording cb = false -> made_idle w ->
  made_idle (snd (processAudioChunks cb final w)).
Proof.
  intros Hcb (Ha & Hi & Hr & Hq). unfold processAudioChunks.
  destruct (audioChunksRef (ui w)); [repeat split; assumption|].
  unfold made_idle. cbn. repeat split; try assumption.
  apply map_Forall_insert_2; assumption.
Qed.

Lemma made_idle_with_ui f w : made_idle w -> made_idle (with_ui f w).
Proof. intros H. exact H. Qed.

Lemma made_idle_step e w w' :
  made_idle w -> step e w = Some w' -> made_idle w'.
Proof.
  intros Hw Hstep. pose proof Hw as (Ha & Hi & Hr & Hq).
  destruct e; step_inv Hstep.
  - unfold made_idle, startRecording. cbn. repeat split; try assumption.
    apply map_Forall_insert_2; [|assumption]. cbn.
    unfold shows_start in E. apply andb_true_iff in E as [E _].
    apply negb_true_iff in E. exact E.
  - pose proof (map_Forall_lookup_1 _ _ _ _ Ha E) as Hc. cbn in Hc.
    destruct a; unfold made_idle; cbn; repeat split; try assumption;
      try (apply map_Forall_delete; assumption);
      apply map_Forall_insert_2; assumption.
  - exact Hw.
  - apply made_idle_processAudioChunks; [|exact Hw].
    exact (map_Forall_lookup_1 _ _ _ _ Hi E).
  - unfold stopRecording.
    destruct (mediaRecorderRef (ui w)) as [rid|]; [|exact Hw].
    destruct (recorders w !! rid) as [r|] eqn:Er; [|exact Hw].
    destruct (rec_active r); [|exact Hw].
    pose proof (map_Forall_lookup_1 _ _ _ _ Hr Er) as Hc. cbn in Hc.
    cbn. destruct (processingIntervalRef (ui w)); unfold made_idle; cbn;
      repeat split; try assumption;
      try (apply map_Forall_delete; assumption);
      apply map_Forall_insert_2; assumption.
  - pose proof (map_Forall_lookup_1 _ _ _ _ Hr E) as Hc. cbn in Hc.
    unfold onstop.
    match goal with
    | |- context [processAudioChunks ?cb ?f ?x] =>
        pose proof (made_idle_processAudioChunks cb f x Hc) as Hp;
        destruct (processAudioChunks cb f x) as [sent w2]
    end.
    cbn [snd] in Hp.
    assert (Hw2 : made_idle w2).
    { apply Hp. unfold made_idle; cbn. repeat split; try assumption.
      apply map_Forall_insert_2; assumption. }
    destruct sent; exact Hw2.
  - exact Hw.
  - unfold made_idle, returned; cbn. repeat split; try assumption.
    apply map_Forall_delete; assumption.
  - unfold made_idle, returned; cbn. repeat split; try assumption.
    apply map_Forall_delete; assumption.
  - pose proof (map_Forall_lookup_1 _ _ _ _ Hq E) as Hc. cbn in Hc.
    unfold made_idle; cbn. repeat split; try assumption.
    apply map_Forall_insert_2; assumption.
  - unfold made_idle, returned; cbn. repeat split; try assumption.
    apply map_Forall_delete; assumption.
  - pose proof (map_Forall_lookup_1 _ _ _ _ Hq E) as Hc. cbn in Hc.
    unfold made_idle; cbn. repeat split; try assumption.
    apply map_Forall_insert_2; assumption.
  - unfold made_idle, returned; cbn. repeat split; try assumption.
    apply map_Forall_delete; assumption.
  - unfold made_idle, returned; cbn. repeat split; try assumption.
    apply map_Forall_delete; assumption.
Qed.

Lemma reachable_made_idle p w : reachable p w -> made_idle w.
Proof.
  induction 1 as [|e w w' _ IH Hstep].
  - repeat split; apply map_Forall_empty.
  - exact (made_idle_step _ _ _ IH Hstep).
Qed.

(** So in every world the component can reach, the [catch] of
    [processAudioChunks] shows the failure of any request, periodic ones
    of a recording session included. *)
Lemma reachable_failure_is_shown p w id r err :
  reachable p w -> requests w !! id = Some r -> req_phase r = AwaitFetch ->
  exists w',
    step (FetchFailed id err) w = Some w' /\
    error (ui w') = message_of err /\
    isRecording (ui w') = isRecording (ui w).
Proof.
  intros Hw Hr Hph.
  destruct (reachable_made_idle _ _ Hw) as (_ & _ & _ & Hq).
  pose proof (map_Forall_lookup_1 _ _ _ _ Hq Hr) as Hc. cbn in Hc.
  unfold step. rewrite Hr. cbn. rewrite Hph. eexists.
  split; [reflexivity|]. unfold returned, onstop_finally, on_catch.
  rewrite Hc. cbn. destruct (req_final r); split; reflexivity.
Qed.

Lemma orderly_frame w w' :
  orderly w ->
  recorders w' = recorders w -> acquiring w' = acquiring w ->
  intervals w' = intervals w ->
  isRecording (ui w') = isRecording (ui w) ->
  mediaRecorderRef (ui w') = mediaRecorderRef (ui w) ->
  processingIntervalRef (ui w') = processingIntervalRef (ui w) ->
  orderly w'.
Proof.
  unfold orderly. intros Hw -> -> -> -> -> ->. exact Hw.
Qed.

Ltac frame_of w Hw :=
  apply (orderly_frame w); [exact Hw|..];
  unfold returned, onstop_finally, on_catch, processAudioChunks,
    ondataavailable;
  cbn;
  repeat match goal with
         | |- context [if ?b then _ else _] => destruct b; cbn
         | |- context [match ?x with _ => _ end] => destruct x; cbn
         end;
  reflexivity.

Lemma orderly_step e w w' :
  orderly w -> session_step e w = Some w' -> orderly w'.
Proof.
  intros Hw Hstep. pose proof Hw as [Hrecs Hshape].
  destruct e; unfold session_step in Hstep.
  - case_bool_decide as Hemp; [|discriminate]. step_inv Hstep.
    unfold shows_start in E. apply andb_true_iff in E as [E _].
    apply negb_true_iff in E. rewrite E in Hshape.
    destruct Hshape as [Hint _].
    unfold orderly, startRecording. cbn. rewrite E, Hemp, insert_empty.
    repeat split; eauto.
  - step_inv Hstep. destruct (isRecording (ui w)) eqn:Hrec.
    { destruct Hshape as [Hemp _]. rewrite Hemp, lookup_empty in E.
      discriminate. }
    destruct Hshape as [Hint [Hemp|(id' & cb' & Hone)]].
    { rewrite Hemp, lookup_empty in E. discriminate. }
    rewrite Hone in E. apply lookup_singleton_Some in E as [<- <-].
    destruct a; unfold orderly; cbn; rewrite Hone, delete_singleton_eq.
    + split; [apply map_Forall_insert_2; [reflexivity|assumption]|].
      split; [reflexivity|]. do 4 eexists.
      rewrite lookup_insert_eq, Hint, insert_empty.
      repeat split; reflexivity.
    + repeat split; auto.
  - step_inv Hstep. frame_of w Hw.
  - step_inv Hstep. frame_of w Hw.
  - step_inv Hstep. unfold shows_stop in E. rewrite E in Hshape.
    destruct Hshape as (Hemp & rid & r & tid & cb & Href & Hr & Hact & Htid
                        & Hint).
    unfold stopRecording, orderly. rewrite Href, Hr, Hact. cbn.
    rewrite Htid. cbn. rewrite Hint, delete_singleton_eq.
    split; [apply map_Forall_insert_2; [discriminate|assumption]|].
    split; auto.
  - step_inv Hstep.
    pose proof (map_Forall_lookup_1 _ _ _ _ Hrecs E) as Hr. cbn in Hr.
    match goal with
    | |- orderly (onstop ?cb ?x) =>
        assert (Hx : orderly x); [|apply (orderly_frame x); [exact Hx|..];
          unfold onstop, processAudioChunks, onstop_finally; cbn;
          destruct (audioChunksRef _); reflexivity]
    end.
    unfold orderly. cbn.
    split; [apply map_Forall_insert_2; [discriminate|assumption]|].
    assert (Hui : forall c, isRecording (ondataavailable data c)
                            = isRecording c /\
                            mediaRecorderRef (ondataavailable data c)
                            = mediaRecorderRef c /\
                            processingIntervalRef (ondataavailable data c)
                            = processingIntervalRef c).
    { intros c. destruct data; repeat split. }
    destruct (Hui (ui w)) as (-> & -> & ->).
    destruct (isRecording (ui w)); [|exact Hshape].
    destruct Hshape as (Hemp & rid' & r' & tid & cb & Href & Hr' & Hact & Htid
                        & Hint).
    split; [exact Hemp|]. exists rid', r', tid, cb.
    rewrite lookup_insert_ne; [repeat split; assumption|].
    intros ->. rewrite Hr' in E. injection E as ->.
    rewrite (Hr Hact) in E0. discriminate.
  - step_inv Hstep. frame_of w Hw.
  - step_inv Hstep. frame_of w Hw.
  - step_inv Hstep; frame_of w Hw.
  - step_inv Hstep. rewrite on_read_unfold in E1. injection E1 as <- <-.
    destruct (for_lines_same_session
                (lines_of (fst (TextDecoder.decode decoder value))) (ui w))
      as (H1 & _ & _ & _ & H2 & _ & H3).
    apply (orderly_frame w); [exact Hw|..]; cbn; auto.
  - step_inv Hstep. frame_of w Hw.
  - step_inv Hstep. frame_of w Hw.
Qed.

Lemma orderly_boot p : orderly (boot p).
Proof.
  unfold orderly. cbn. split; [apply map_Forall_empty|]. auto.
Qed.

Lemma orderly_run es w w' :
  orderly w -> session_run es w = Some w' -> orderly w'.
Proof.
  revert w. induction es as [|e es IH]; intros w Hw Hrun.
  - injection Hrun as <-. exact Hw.
  - cbn [session_run] in Hrun.
    destruct (session_step e w) as [w1|] eqn:Hstep; [|discriminate].
    exact (IH w1 (orderly_step _ _ _ Hw Hstep) Hrun).
Qed.

(** Take any world reached without overlapping starts in which the
    component is recording, whatever requests are in flight.
    [stopRecording] disarms the timer before it returns.  From then on,
    until a new session is started, no tick occurs and no timer is armed;
    idle is either reached or one pending timeout away; and once that
    timeout has fired the status is idle, however the final request
    fares. *)
Theorem stop_disarms_and_reaches_idle p es0 w es w' :
  session_run es0 (boot p) = Some w ->
  isRecording (ui w) = true ->
  Forall (fun e => e <> ClickStart) es ->
  run (ClickStop :: es) w = Some w' ->
  step ClickStop w = Some (stopRecording w) /\
  intervals (stopRecording w) = ∅ /\
  processingIntervalRef (ui (stopRecording w)) = None /\
  Forall (fun e => forall t, e <> Tick t) es /\
  intervals w' = ∅ /\
  (status (ui w') = "idle"%string \/
   exists w'', step TimeoutFired w' = Some w'' /\
               status (ui w'') = "idle"%string) /\
  (In TimeoutFired es -> status (ui w') = "idle"%string).
Proof.
  intros Hreach Hrec Hes Hrun.
  destruct (orderly_run _ _ _ (orderly_boot p) Hreach) as [_ Hshape].
  rewrite Hrec in Hshape.
  destruct Hshape as (Hemp & rid & r & tid & cb & Href & Hr & Hact & Htid
                      & Hint).
  exact (stop_disarms w rid r tid cb es w'
           Hrec Href Hr Hact Htid Hint Hemp Hes Hrun).
Qed.

Lemma stop_disarms_and_reaches_idle_witness :
  let w := after many_ticked in
  let w' := after (many_ticked ++ ClickStop :: draining) in
  step ClickStop w = Some (stopRecording w) /\
  intervals (stopRecording w) = ∅ /\
  processingIntervalRef (ui (stopRecording w)) = None /\
  Forall (fun e => forall t, e <> Tick t) draining /\
  intervals w' = ∅ /\
  (status (ui w') = "idle"%string \/
   exists w'', step TimeoutFired w' = Some w'' /\
               status (ui w'') = "idle"%string) /\
  (In TimeoutFired draining -> status (ui w') = "idle"%string).
Proof.
  intros w w'.
  apply (stop_disarms_and_reaches_idle sample_props many_ticked w
           draining w');
    try (vm_compute; reflexivity).
  repeat constructor; discriminate.
Defined.

(** C4 at the failing input: "Start Recording" is clicked twice before
    the microphone answers and both requests are granted.  Each
    continuation arms a timer and stores it in the one ref, so timer 3 is
    no longer held anywhere.  [stopRecording] clears timer 5 and stops
    recorder 4; timer 3 stays armed and recorder 2 stays active, and
    after the stop has returned, and after the status is back to idle, a
    tick of timer 3 issues a periodic request. *)
Theorem C4_overlapping_starts_keep_ticking :
  run overlapping (boot sample_props) = Some (after overlapping) /\
  isRecording (ui (after overlapping)) = true /\
  processingIntervalRef (ui (after overlapping)) = Some 5%nat /\
  step ClickStop (after overlapping) =
    Some (stopRecording (after overlapping)) /\
  processingIntervalRef (ui (stopRecording (after overlapping))) = None /\
  intervals (stopRecording (after overlapping)) =
    {[3%nat := mkCallback sample_props false]} /\
  option_map rec_active
    (recorders (stopRecording (after overlapping)) !! 2%nat) = Some true /\
  requests (stopRecording (after overlapping)) = ∅ /\
  option_map (fun w => option_map req_final (requests w !! 6%nat))
    (step (Tick 3) (stopRecording (after overlapping))) = Some (Some false) /\
  option_map (fun w => (status (ui w),
                        option_map req_final (requests w !! 6%nat),
                        option_map req_final (requests w !! 7%nat)))
    (run [ClickStop; RecorderStopped 4 []; TimeoutFired; Tick 3]
       (after overlapping))
    = Some ("idle"%string, Some true, Some false).
Proof. vm_compute. repeat split; reflexivity. Qed.

End Lifecycle.

(** * Further properties of the streaming component *)

(** Case analysis on a task that took place. *)
Ltac invert_step H :=
  unfold step in H;
  repeat match type of H with
         | (?m ≫= _) = Some _ =>
             let E := fresh "E" in
             destruct m eqn:E; cbn [mbind option_bind] in H;
             [|discriminate H]
         | (if ?b then _ else _) = Some _ =>
             let E := fresh "E" in destruct b eqn:E; try discriminate H
         | match ?x with _ => _ end = Some _ =>
             let E := fresh "E" in destruct x eqn:E; try discriminate H
         end;
  try (injection H as H; subst).

(** ** The captured audio *)

Section Accumulator.

Implicit Types (w : World) (c : Component) (e : event).

Ltac crush_cases :=
  cbn;
  repeat match goal with
         | |- context [match ?x with _ => _ end] =>
             destruct x eqn:?; cbn in *; subst
         end;
  rewrite ?app_nil_r; try reflexivity; try congruence.

Lemma onstop_chunks cb w :
  audioChunksRef (ui (onstop cb w)) = audioChunksRef (ui w).
Proof.
  unfold onstop, processAudioChunks. cbn.
  destruct (audioChunksRef (ui w)) eqn:Hl; cbn; rewrite ?Hl; reflexivity.
Qed.

Lemma step_pushed e w w' :
  e <> ClickStart -> step e w = Some w' ->
  audioChunksRef (ui w') = audioChunksRef (ui w) ++ pushed e.
Proof.
  intros Hne Hstep. destruct e; try congruence; invert_step Hstep;
    rewrite ?onstop_chunks;
    unfold returned, onstop_finally, on_catch, processAudioChunks,
      stopRecording, startRecording_resume, pushed, ondataavailable.
  all: try match goal with
           | E1 : on_read _ _ _ = _ |- _ =>
               rewrite on_read_unfold in E1; injection E1 as <- <-; cbn;
               destruct (for_lines_same_session
                           (lines_of (fst (TextDecoder.decode decoder value)))
                           (ui w))
                 as (_ & _ & _ & _ & _ & -> & _);
               rewrite app_nil_r; reflexivity
           end.
  all: crush_cases.
Qed.

Lemma run_pushed es w w' :
  Forall (fun e => e <> ClickStart) es -> run es w = Some w' ->
  audioChunksRef (ui w') = audioChunksRef (ui w) ++ captured es.
Proof.
  intros Hes. revert w. induction Hes as [|e es He _ IH]; intros w Hrun.
  - injection Hrun as <-. cbn. rewrite app_nil_r. reflexivity.
  - cbn [run] in Hrun. destruct (step e w) as [w1|] eqn:Hstep;
      [|discriminate].
    cbn [mbind option_bind] in Hrun.
    rewrite (IH w1 Hrun), (step_pushed _ _ _ He Hstep).
    unfold captured. cbn [flat_map]. rewrite app_assoc. reflexivity.
Qed.

(** In a run without a new start the chunk list only grows: it is what
    it was, followed by what the recorder callbacks of the run pushed, in
    their order. *)
Theorem chunks_append_only es w w' :
  Forall (fun e => e <> ClickStart) es -> run es w = Some w' ->
  audioChunksRef (ui w') = audioChunksRef (ui w) ++ captured es.
Proof.
  exact (run_pushed es w w').
Qed.

Lemma chunks_append_only_witness :
  audioChunksRef
    (ui (after (recording ++
                [DataAvailable 1 []; Tick 2; DataAvailable 1 audio;
                 ClickStop; RecorderStopped 1 audio]))) =
  audioChunksRef (ui (after recording)) ++
  captured [DataAvailable 1 []; Tick 2; DataAvailable 1 audio;
            ClickStop; RecorderStopped 1 audio].
Proof.
  apply chunks_append_only; [|vm_compute; reflexivity].
  repeat constructor; discriminate.
Defined.

Lemma tick_issues w tid cb :
  intervals w !! tid = Some cb -> audioChunksRef (ui w) <> [] ->
  exists r,
    step (Tick tid) w =
      Some (bump (with_requests <[next w := r]> w)) /\
    req_callback r = cb /\ req_final r = false /\
    req_phase r = AwaitFetch /\
    fd_file (req_body r) = concat (audioChunksRef (ui w)).
Proof.
  intros Ht Hne. unfold step. rewrite Ht. cbn. unfold processAudioChunks.
  destruct (audioChunksRef (ui w)) as [|b l] eqn:Hl; [congruence|].
  eexists. split; [reflexivity|]. repeat split.
Qed.

(** Each periodic request carries everything captured since the start:
    the file of a later request of the session is the file of an earlier
    one followed by what was pushed in between. *)
Theorem later_request_extends w t1 w1 es w2 t2 w3 :
  audioChunksRef (ui w) <> [] ->
  step (Tick t1) w = Some w1 ->
  Forall (fun e => e <> ClickStart) es -> run es w1 = Some w2 ->
  step (Tick t2) w2 = Some w3 ->
  exists ra rb,
    requests w1 !! next w = Some ra /\ requests w3 !! next w2 = Some rb /\
    fd_file (req_body ra) = concat (audioChunksRef (ui w)) /\
    fd_file (req_body rb) = fd_file (req_body ra) ++ concat (captured es).
Proof.
  intros Hne H1 Hes Hrun H2.
  assert (Ht1 : exists cb, intervals w !! t1 = Some cb).
  { unfold step in H1. destruct (intervals w !! t1); [eauto|discriminate]. }
  destruct Ht1 as [cb1 Ht1].
  destruct (tick_issues _ _ _ Ht1 Hne) as (ra & Hs1 & _ & _ & _ & Hfa).
  rewrite Hs1 in H1. injection H1 as <-.
  pose proof (run_pushed _ _ _ Hes Hrun) as Hgrow. cbn in Hgrow.
  assert (Hne2 : audioChunksRef (ui w2) <> []).
  { rewrite Hgrow. intros H. apply app_eq_nil in H as [H _]. auto. }
  assert (Ht2 : exists cb, intervals w2 !! t2 = Some cb).
  { unfold step in H2. destruct (intervals w2 !! t2); [eauto|discriminate]. }
  destruct Ht2 as [cb2 Ht2].
  destruct (tick_issues _ _ _ Ht2 Hne2) as (rb & Hs2 & _ & _ & _ & Hfb).
  rewrite Hs2 in H2. injection H2 as <-.
  exists ra, rb. cbn. rewrite !lookup_insert_eq.
  repeat split; [exact Hfa|]. rewrite Hfb, Hgrow, concat_app, Hfa.
  reflexivity.
Qed.

Lemma later_request_extends_witness :
  exists ra rb,
    requests (after (recording ++ [Tick 2])) !! next (after recording)
      = Some ra /\
    requests (after (recording ++
                     [Tick 2; DataAvailable 1 audio; FetchResponded 3 200;
                      DataAvailable 1 []; Tick 2]))
      !! next (after (recording ++
                      [Tick 2; DataAvailable 1 audio; FetchResponded 3 200;
                       DataAvailable 1 []]))
      = Some rb /\
    fd_file (req_body ra) = concat (audioChunksRef (ui (after recording))) /\
    fd_file (req_body rb) =
      fd_file (req_body ra) ++
      concat (captured [DataAvailable 1 audio; FetchResponded 3 200;
                        DataAvailable 1 []]).
Proof.
  apply (later_request_extends (after recording) 2
           (after (recording ++ [Tick 2]))
           [DataAvailable 1 audio; FetchResponded 3 200; DataAvailable 1 []]
           (after (recording ++
                   [Tick 2; DataAvailable 1 audio; FetchResponded 3 200;
                    DataAvailable 1 []]))
           2);
    try (vm_compute; reflexivity).
  - vm_compute. discriminate.
  - repeat constructor; discriminate.
Defined.

(** When a recorder reports its stop, its last data is pushed first; the
    blob kept for playback is then the whole capture.  Unless the capture
    is empty, one request is issued and no other request is touched: the
    final one, made through the callback the recorder holds, waiting for
    [fetch], its file exactly the playback blob.  With an empty capture
    nothing is sent and the status goes to idle at once. *)
Theorem final_request_carries_playback_blob w rid r data :
  recorders w !! rid = Some r -> rec_stopping r = true ->
  exists w',
    step (RecorderStopped rid data) w = Some w' /\
    audioChunksRef (ui w') = audioChunksRef (ui w) ++ pushed
                                                        (RecorderStopped rid data) /\
    audioBlob (ui w') = Some (concat (audioChunksRef (ui w'))) /\
    (audioChunksRef (ui w') <> [] ->
     exists q,
       requests w' = <[next w := q]> (requests w) /\
       next w' = S (next w) /\
       req_final q = true /\ req_phase q = AwaitFetch /\
       req_callback q = rec_onstop r /\
       Some (fd_file (req_body q)) = audioBlob (ui w') /\
       status (ui w') = status (ui w)) /\
    (audioChunksRef (ui w') = [] ->
     requests w' = requests w /\ status (ui w') = "idle"%string).
Proof.
  intros Hr Hs.
  assert (Hpush : audioChunksRef (ondataavailable data (ui w)) =
                  audioChunksRef (ui w) ++ pushed (RecorderStopped rid data)).
  { destruct data; cbn; rewrite ?app_nil_r; reflexivity. }
  assert (Hst : status (ondataavailable data (ui w)) = status (ui w)).
  { destruct data; reflexivity. }
  unfold step. rewrite Hr. cbn [mbind option_bind]. rewrite Hs.
  eexists. split; [reflexivity|].
  rewrite !onstop_chunks. cbn [ui with_ui with_recorders].
  rewrite <- Hpush. split; [reflexivity|].
  unfold onstop, processAudioChunks.
  cbn [ui with_ui with_recorders audioChunksRef setAudioBlob].
  destruct (audioChunksRef (ondataavailable data (ui w))) as [|b l] eqn:Hl.
  - cbn. rewrite Hl. repeat split; try reflexivity.
    intros H; contradiction.
  - cbn. rewrite Hl, Hst. split; [reflexivity|]. split.
    + intros _. eexists. repeat split; reflexivity.
    + discriminate.
Qed.

Lemma final_request_carries_playback_blob_witness :
  exists w',
    step (RecorderStopped 1 audio) (after (recording ++ [ClickStop]))
      = Some w' /\
    audioChunksRef (ui w') =
      audioChunksRef (ui (after (recording ++ [ClickStop]))) ++
      pushed (RecorderStopped 1 audio) /\
    audioBlob (ui w') = Some (concat (audioChunksRef (ui w'))) /\
    (audioChunksRef (ui w') <> [] ->
     exists q,
       requests w' =
         <[next (after (recording ++ [ClickStop])) := q]>
           (requests (after (recording ++ [ClickStop]))) /\
       next w' = S (next (after (recording ++ [ClickStop]))) /\
       req_final q = true /\ req_phase q = AwaitFetch /\
       req_callback q = rec_onstop
                          (mkRecorder false true false
                             (mkCallback sample_props false)) /\
       Some (fd_file (req_body q)) = audioBlob (ui w') /\
       status (ui w') = status (ui (after (recording ++ [ClickStop])))) /\
    (audioChunksRef (ui w') = [] ->
     requests w' = requests (after (recording ++ [ClickStop])) /\
     status (ui w') = "idle"%string).
Proof.
  apply (final_request_carries_playback_blob
           (after (recording ++ [ClickStop])) 1
           (mkRecorder false true false (mkCallback sample_props false)));
    vm_compute; reflexivity.
Defined.

End Accumulator.

(** ** Stopping, unmounting and what the render can show *)

Section Teardown.

Implicit Types (w : World) (c : Component) (e : event).

(** A second [stopRecording] does nothing: the first one left the
    recorder inactive, and the guard of the second sees it. *)
Theorem stopRecording_idempotent w :
  stopRecording (stopRecording w) = stopRecording w.
Proof.
  destruct (mediaRecorderRef (ui w)) as [rid|] eqn:Href.
  2: { unfold stopRecording. rewrite Href. cbn. rewrite Href. reflexivity. }
  destruct (recorders w !! rid) as [r|] eqn:Hr.
  2: { unfold stopRecording. rewrite Href, Hr. cbn. rewrite Href, Hr.
       reflexivity. }
  destruct (rec_active r) eqn:Hact.
  2: { unfold stopRecording. rewrite Href, Hr, Hact. cbn.
       rewrite Href, Hr, Hact. reflexivity. }
  assert (Hafter : mediaRecorderRef (ui (stopRecording w)) = Some rid /\
                   exists r', recorders (stopRecording w) !! rid = Some r' /\
                              rec_active r' = false).
  { unfold stopRecording. rewrite Href, Hr, Hact. cbn.
    destruct (processingIntervalRef (ui w)); cbn;
      (split; [exact Href|]); eexists; rewrite lookup_insert_eq;
      split; reflexivity. }
  destruct Hafter as (Href' & r' & Hr' & Hact').
  unfold stopRecording at 1. rewrite Href', Hr', Hact'. reflexivity.
Qed.

(** Stopping a recording session releases the device and drops nothing:
    the recorder is inactive with its stop event pending and its tracks
    stopped, the component is no longer recording and shows the disabled
    processing button, one more timeout is pending, and the captured
    chunks and the requests in flight are as they were. *)
Theorem stop_releases_device p es w :
  session_run es (boot p) = Some w -> isRecording (ui w) = true ->
  exists rid r,
    mediaRecorderRef (ui w) = Some rid /\ recorders w !! rid = Some r /\
    recorders (stopRecording w) !! rid =
      Some (mkRecorder false true false (rec_onstop r)) /\
    isRecording (ui (stopRecording w)) = false /\
    status (ui (stopRecording w)) = "processing"%string /\
    shows_start (ui (stopRecording w)) = false /\
    timeouts (stopRecording w) = S (timeouts w) /\
    audioChunksRef (ui (stopRecording w)) = audioChunksRef (ui w) /\
    requests (stopRecording w) = requests w.
Proof.
  intros Hrun Hrec.
  destruct (orderly_run _ _ _ (orderly_boot p) Hrun) as [_ Hshape].
  rewrite Hrec in Hshape.
  destruct Hshape as (_ & rid & r & tid & cb & Href & Hr & Hact & Htid & _).
  exists rid, r. unfold stopRecording. rewrite Href, Hr, Hact. cbn.
  rewrite Htid. cbn. rewrite lookup_insert_eq. repeat split.
Qed.

Lemma stop_releases_device_witness :
  exists rid r,
    mediaRecorderRef (ui (after many_ticked)) = Some rid /\
    recorders (after many_ticked) !! rid = Some r /\
    recorders (stopRecording (after many_ticked)) !! rid =
      Some (mkRecorder false true false (rec_onstop r)) /\
    isRecording (ui (stopRecording (after many_ticked))) = false /\
    status (ui (stopRecording (after many_ticked))) = "processing"%string /\
    shows_start (ui (stopRecording (after many_ticked))) = false /\
    timeouts (stopRecording (after many_ticked)) =
      S (timeouts (after many_ticked)) /\
    audioChunksRef (ui (stopRecording (after many_ticked))) =
      audioChunksRef (ui (after many_ticked)) /\
    requests (stopRecording (after many_ticked)) =
      requests (after many_ticked).
Proof.
  apply (stop_releases_device sample_props many_ticked);
    vm_compute; reflexivity.
Defined.

(** In a run without overlapping starts, the cleanup on unmount leaves
    no timer armed and sets no state; if the component was recording, its
    recorder is stopped and its tracks are released. *)
Theorem unmount_disarms p es w :
  session_run es (boot p) = Some w ->
  intervals (unmount w) = ∅ /\ ui (unmount w) = ui w /\
  requests (unmount w) = requests w /\
  (isRecording (ui w) = true ->
   exists rid r,
     mediaRecorderRef (ui w) = Some rid /\ recorders w !! rid = Some r /\
     recorders (unmount w) !! rid =
       Some (mkRecorder false true false (rec_onstop r))).
Proof.
  intros Hrun.
  destruct (orderly_run _ _ _ (orderly_boot p) Hrun) as [_ Hshape].
  destruct (isRecording (ui w)) eqn:Hrec.
  - destruct Hshape
      as (_ & rid & r & tid & cb & Href & Hr & Hact & Htid & Hint).
    unfold unmount. rewrite Href, Hr, Hact. cbn. rewrite Htid. cbn.
    rewrite Hint, delete_singleton_eq. repeat split.
    intros _. exists rid, r. rewrite lookup_insert_eq. repeat split; auto.
  - destruct Hshape as [Hint _]. unfold unmount.
    set (w1 := match mediaRecorderRef (ui w) with
               | Some rid =>
                   match recorders w !! rid with
                   | Some r =>
                       if rec_active r then
                         with_recorders
                           <[rid := mkRecorder false true false
                                      (rec_onstop r)]> w
                       else w
                   | None => w
                   end
               | None => w
               end).
    assert (Hw1 : intervals w1 = ∅ /\ ui w1 = ui w /\
                  requests w1 = requests w).
    { unfold w1. destruct (mediaRecorderRef (ui w)) as [rid|]; auto.
      destruct (recorders w !! rid) as [r|]; auto.
      destruct (rec_active r); auto. }
    destruct Hw1 as (Hi & Hu & Hq).
    destruct (processingIntervalRef (ui w1)); cbn;
      rewrite ?Hi, ?delete_empty; repeat split; auto; discriminate.
Qed.

Lemma unmount_disarms_witness :
  intervals (unmount (after many_ticked)) = ∅ /\
  ui (unmount (after many_ticked)) = ui (after many_ticked) /\
  requests (unmount (after many_ticked)) = requests (after many_ticked) /\
  (isRecording (ui (after many_ticked)) = true ->
   exists rid r,
     mediaRecorderRef (ui (after many_ticked)) = Some rid /\
     recorders (after many_ticked) !! rid = Some r /\
     recorders (unmount (after many_ticked)) !! rid =
       Some (mkRecorder false true false (rec_onstop r))).
Proof.
  apply (unmount_disarms sample_props many_ticked). vm_compute. reflexivity.
Defined.

End Teardown.

(** ** What the state can be *)

Section StateInvariants.

Implicit Types (w : World) (c : Component) (e : event).

Lemma complete_text_presentable data t :
  complete_text data = Some t -> presentable t.
Proof.
  unfold complete_text, presentable.
  destruct (Get data (units "status")) as [st|]; [|discriminate].
  destruct (strict_eq_lit st "complete"); [|discriminate].
  destruct (ToBoolean (default JUndefined (Get data (units "result"))));
    [|discriminate].
  destruct (ToBoolean _) eqn:Ht; intros [= <-]; auto.
Qed.

Lemma for_lines_presentable lines c :
  presentable (transcription c) ->
  presentable (transcription (for_lines lines c)).
Proof.
  rewrite for_lines_decoded. generalize (decoded lines) as events.
  intros events. revert c.
  induction events as [|data events IH]; intros c Hc; [exact Hc|].
  cbn [fold_left]. apply IH. unfold apply_event.
  destruct (is_error_event data); [exact Hc|].
  destruct (complete_text data) as [t|] eqn:Ht; [|exact Hc].
  exact (complete_text_presentable _ _ Ht).
Qed.

Lemma onstop_ui cb w :
  transcription (ui (onstop cb w)) = transcription (ui w) /\
  error (ui (onstop cb w)) = error (ui w) /\
  isStreaming (ui (onstop cb w)) = isStreaming (ui w) /\
  (status (ui (onstop cb w)) = status (ui w) \/
   status (ui (onstop cb w)) = "idle"%string).
Proof.
  unfold onstop, processAudioChunks. cbn.
  destruct (audioChunksRef (ui w)); cbn; auto.
Qed.

Lemma step_status_text e w w' :
  step e w = Some w' ->
  (known_status (status (ui w)) -> known_status (status (ui w'))) /\
  (presentable (transcription (ui w)) ->
   presentable (transcription (ui w'))).
Proof.
  intros Hstep. destruct e; invert_step Hstep;
    try match goal with
        | |- context [onstop ?cb ?x] =>
            destruct (onstop_ui cb x) as (-> & _ & _ & [-> | ->])
        end;
    unfold returned, onstop_finally, on_catch, processAudioChunks,
      stopRecording, startRecording, startRecording_resume,
      ondataavailable, known_status, presentable.
  all: try match goal with
           | E1 : on_read _ _ _ = _ |- _ =>
               rewrite on_read_unfold in E1; injection E1 as <- <-; cbn;
               split;
               [ destruct (for_lines_same_session
                             (lines_of
                                (fst (TextDecoder.decode decoder value)))
                             (ui w)) as (_ & _ & -> & _); auto
               | apply for_lines_presentable ]
           end.
  all: cbn;
    repeat match goal with
           | |- context [match ?x with _ => _ end] =>
               destruct x eqn:?; cbn in *; subst
           end;
    split; auto.
Qed.

Lemma reachable_status_text p w :
  reachable p w ->
  known_status (status (ui w)) /\ presentable (transcription (ui w)).
Proof.
  induction 1 as [|e w w' _ [IHs IHt] Hstep].
  - split; [left; reflexivity | left; reflexivity].
  - destruct (step_status_text _ _ _ Hstep) as [Hs Ht]. auto.
Qed.

(** The status is only ever idle, recording or processing.  So the
    banner the render keeps for [status === "streaming"] is never
    shown. *)
Theorem status_is_never_streaming p w :
  reachable p w ->
  known_status (status (ui w)) /\ shows_streaming_banner (ui w) = false.
Proof.
  intros Hw. destruct (reachable_status_text _ _ Hw) as [Hs _].
  split; [exact Hs|]. unfold shows_streaming_banner.
  destruct Hs as [-> | [-> | ->]]; reflexivity.
Qed.

Lemma status_is_never_streaming_witness :
  known_status (status (ui (after final_first))) /\
  shows_streaming_banner (ui (after final_first)) = false.
Proof.
  apply (status_is_never_streaming sample_props).
  apply (run_reachable sample_props final_first (boot sample_props));
    [constructor | vm_compute; reflexivity].
Defined.

(** The transcription state is always the empty string or a truthy
    value, never [null], [undefined] or another falsy value: the text
    area is hidden exactly when the text is the empty string. *)
Theorem transcription_is_presentable p w :
  reachable p w ->
  presentable (transcription (ui w)) /\
  (shows_transcription (ui w) = false <-> transcription (ui w) = JStr []).
Proof.
  intros Hw. destruct (reachable_status_text _ _ Hw) as [_ Ht].
  split; [exact Ht|]. unfold shows_transcription. split.
  - intros Hf. destruct Ht as [Ht|Ht]; [exact Ht|congruence].
  - intros ->. reflexivity.
Qed.

Lemma transcription_is_presentable_witness :
  presentable (transcription (ui (after final_first))) /\
  (shows_transcription (ui (after final_first)) = false <->
   transcription (ui (after final_first)) = JStr []).
Proof.
  apply (transcription_is_presentable sample_props).
  apply (run_reachable sample_props final_first (boot sample_props));
    [constructor | vm_compute; reflexivity].
Defined.

End StateInvariants.

(** ** What a response can change *)

Section Outcome.

Implicit Types (w : World) (c : Component) (e : event)
  (d : TextDecoder.t).

Lemma for_lines_keeps_error lines c :
  existsb is_error_line lines = false ->
  error (for_lines lines c) = error c.
Proof.
  revert c. induction lines as [|line rest IH]; intros c; [reflexivity|].
  cbn [existsb for_lines]. intros H. apply orb_false_iff in H as [Hl Hrest].
  unfold is_error_line in Hl. rewrite on_line_apply.
  destruct (JSON.parse line) as [data|]; [|exact (IH c Hrest)].
  rewrite Hl. rewrite (IH _ Hrest). unfold apply_event. rewrite Hl.
  destruct (complete_text data); reflexivity.
Qed.

Lemma for_lines_keeps_text lines c :
  existsb is_complete_line lines = false ->
  transcription (for_lines lines c) = transcription c.
Proof.
  revert c. induction lines as [|line rest IH]; intros c; [reflexivity|].
  cbn [existsb for_lines]. intros H. apply orb_false_iff in H as [Hl Hrest].
  unfold is_complete_line in Hl. rewrite on_line_apply.
  destruct (JSON.parse line) as [data|]; [|exact (IH c Hrest)].
  assert (Hev : transcription (apply_event c data) = transcription c).
  { unfold apply_event. destruct (is_error_event data); [reflexivity|].
    destruct (complete_text data); [discriminate|reflexivity]. }
  destruct (is_error_event data); [exact Hev|].
  rewrite (IH _ Hrest). exact Hev.
Qed.

(** A read changes only what its events say: without an [error] event
    among its lines the error field is kept, so a result that arrives
    after a shown error does not clear it; without a [complete] event
    that carries a result the text is kept. *)
Theorem read_changes_only_what_its_events_say d value c :
  let lines := lines_of (fst (TextDecoder.decode d value)) in
  (existsb is_error_line lines = false ->
   error (snd (on_read d value c)) = error c) /\
  (existsb is_complete_line lines = false ->
   transcription (snd (on_read d value c)) = transcription c).
Proof.
  intros lines. rewrite on_read_unfold. cbn [snd]. split.
  - apply for_lines_keeps_error.
  - apply for_lines_keeps_text.
Qed.

(** In every world the component can reach, whatever
    [processAudioChunks] throws is shown, on periodic requests as on the
    final one and while recording as after: a rejected [fetch], a
    response whose status is outside 200 to 299, and a failed read each
    put their message in the error field and end the request; the text
    is left as it is. *)
Theorem every_failure_is_shown p w id r :
  reachable p w -> requests w !! id = Some r ->
  (req_phase r = AwaitFetch ->
   (forall err, exists w',
      step (FetchFailed id err) w = Some w' /\
      error (ui w') = message_of err /\
      transcription (ui w') = transcription (ui w) /\
      requests w' !! id = None) /\
   (forall code, response_ok code = false -> exists w',
      step (FetchResponded id code) w = Some w' /\
      error (ui w') =
        JStr (units "HTTP error! status: " ++ digits_of code) /\
      transcription (ui w') = transcription (ui w) /\
      requests w' !! id = None)) /\
  (forall d, req_phase r = AwaitRead d ->
   forall err, exists w',
      step (ReadFailed id err) w = Some w' /\
      error (ui w') = message_of err /\
      transcription (ui w') = transcription (ui w) /\
      requests w' !! id = None).
Proof.
  intros Hw Hr.
  destruct (reachable_made_idle _ _ Hw) as (_ & _ & _ & Hq).
  pose proof (map_Forall_lookup_1 _ _ _ _ Hq Hr) as Hc. cbn in Hc.
  assert (Hret : forall err,
             error (ui (returned id r
                          (with_ui (on_catch (req_callback r) err) w)))
               = message_of err /\
             transcription
               (ui (returned id r
                      (with_ui (on_catch (req_callback r) err) w)))
               = transcription (ui w) /\
             requests (returned id r
                         (with_ui (on_catch (req_callback r) err) w))
               !! id = None).
  { intros err. unfold returned, onstop_finally, on_catch. rewrite Hc. cbn.
    rewrite lookup_delete_eq. destruct (req_final r); repeat split. }
  split; [intros Hph; split|intros d Hph].
  - intros err. unfold step. rewrite Hr. cbn. rewrite Hph.
    eexists. split; [reflexivity|]. apply Hret.
  - intros code Hok. unfold step. rewrite Hr. cbn. rewrite Hph, Hok.
    eexists. split; [reflexivity|]. apply (Hret (http_error code)).
  - intros err. unfold step. rewrite Hr. cbn. rewrite Hph.
    eexists. split; [reflexivity|]. apply Hret.
Qed.

(** The streaming flag, once set by a start, is cleared by nothing but a
    refused microphone: stopping, the final request and the timeout all
    leave it set. *)
Theorem isStreaming_survives e w w' :
  step e w = Some w' -> isStreaming (ui w) = true ->
  (forall id err, e <> MediaSettled id (Refused err)) ->
  isStreaming (ui w') = true.
Proof.
  intros Hstep Hon Hne. destruct e; invert_step Hstep;
    try match goal with
        | |- context [onstop ?cb ?x] =>
            destruct (onstop_ui cb x) as (_ & _ & -> & _)
        end;
    unfold returned, onstop_finally, on_catch, processAudioChunks,
      stopRecording, startRecording, startRecording_resume,
      ondataavailable.
  all: try match goal with
           | E1 : on_read _ _ _ = _ |- _ =>
               rewrite on_read_unfold in E1; injection E1 as <- <-; cbn;
               destruct (for_lines_same_session
                           (lines_of
                              (fst (TextDecoder.decode decoder value)))
                           (ui w)) as (_ & -> & _); exact Hon
           end.
  all: try (destruct a; [|exfalso; eapply Hne; reflexivity]).
  all: cbn;
    repeat match goal with
           | |- context [match ?x with _ => _ end] =>
               destruct x eqn:?; cbn in *; subst
           end;
    auto.
Qed.

Lemma read_changes_only_what_its_events_say_witness :
  let c := setError (JStr (units "Failed to fetch")) initial in
  let lines :=
    lines_of (fst (TextDecoder.decode TextDecoder.fresh
                     (complete_line "ok"))) in
  (existsb is_error_line lines = false ->
   error (snd (on_read TextDecoder.fresh (complete_line "ok") c))
   = error c) /\
  (existsb is_complete_line lines = false ->
   transcription (snd (on_read TextDecoder.fresh (complete_line "ok") c))
   = transcription c).
Proof.
  intros c lines.
  apply (read_changes_only_what_its_events_say TextDecoder.fresh
           (complete_line "ok") c).
Defined.

Lemma every_failure_is_shown_witness :
  (AwaitFetch = AwaitFetch ->
   (forall err, exists w',
      step (FetchFailed 3 err) (after ticked) = Some w' /\
      error (ui w') = message_of err /\
      transcription (ui w') = transcription (ui (after ticked)) /\
      requests w' !! 3%nat = None) /\
   (forall code, response_ok code = false -> exists w',
      step (FetchResponded 3 code) (after ticked) = Some w' /\
      error (ui w') =
        JStr (units "HTTP error! status: " ++ digits_of code) /\
      transcription (ui w') = transcription (ui (after ticked)) /\
      requests w' !! 3%nat = None)) /\
  (forall d, AwaitFetch = AwaitRead d ->
   forall err, exists w',
      step (ReadFailed 3 err) (after ticked) = Some w' /\
      error (ui w') = message_of err /\
      transcription (ui w') = transcription (ui (after ticked)) /\
      requests w' !! 3%nat = None).
Proof.
  apply (every_failure_is_shown sample_props (after ticked) 3
           (mkRequest (mkCallback sample_props false) false
              (mkFormData audio (units "key") true (units "auto") true)
              AwaitFetch)).
  - apply (run_reachable sample_props ticked (boot sample_props));
      [constructor | vm_compute; reflexivity].
  - vm_compute. reflexivity.
Defined.

Lemma isStreaming_survives_witness :
  isStreaming (ui (after (recording ++ [ClickStop; RecorderStopped 1 []])))
  = true.
Proof.
  apply (isStreaming_survives (RecorderStopped 1 [])
           (after (recording ++ [ClickStop])));
    [vm_compute; reflexivity | vm_compute; reflexivity | discriminate].
Defined.

End Outcome.

(** ** Blank lines and line ends *)

Section BlankLines.

Implicit Types (s line : jsstring) (c : Component).

Lemma trim_start_head s x r :
  trim_start s = x :: r -> is_white_space x = false.
Proof.
  induction s as [|y s IH]; [discriminate|]. cbn [trim_start].
  destruct (is_white_space y) eqn:Hy; [exact IH|].
  intros [= <- <-]. exact Hy.
Qed.

Lemma trim_start_nil s :
  trim_start s = [] -> forallb is_white_space s = true.
Proof.
  induction s as [|y s IH]; [reflexivity|]. cbn [trim_start forallb].
  destruct (is_white_space y); [exact IH|discriminate].
Qed.

Lemma trim_nil s : trim s = [] -> forallb is_white_space s = true.
Proof.
  unfold trim. intros H. apply trim_start_nil.
  destruct (trim_start s) as [|x r] eqn:Hs; [reflexivity|].
  pose proof (trim_start_head _ _ _ Hs) as Hx.
  apply (f_equal (@rev N)) in H. rewrite rev_involutive in H. cbn in H.
  apply trim_start_nil in H. rewrite forallb_app in H.
  apply andb_true_iff in H as [_ H]. cbn in H. rewrite Hx in H.
  discriminate.
Qed.

Lemma scan_start_white_space x :
  is_white_space x = true ->
  JSON.scan_start x = Some ([], JSON.SStart) \/ JSON.scan_start x = None.
Proof.
  unfold is_white_space, TextDecoder.between. intros H.
  rewrite !orb_true_iff, !andb_true_iff, !N.leb_le, !N.eqb_eq in H.
  unfold JSON.scan_start, JSON.is_digit, TextDecoder.between.
  repeat match goal with
         | |- context [if ?b then _ else _] =>
             let E := fresh "E" in
             destruct b eqn:E;
             [ first
                 [ left; reflexivity
                 | exfalso;
                   rewrite ?orb_true_iff, ?andb_true_iff, ?N.leb_le,
                     ?N.eqb_eq in E; lia ]
             | ]
         end.
  right. reflexivity.
Qed.

Lemma scan_white_space s :
  forallb is_white_space s = true ->
  JSON.scan JSON.SStart s = Some [] \/ JSON.scan JSON.SStart s = None.
Proof.
  induction s as [|x s IH]; [left; reflexivity|].
  cbn [forallb]. intros H. apply andb_true_iff in H as [Hx Hs].
  cbn [JSON.scan JSON.scan_step].
  destruct (scan_start_white_space x Hx) as [-> | ->]; [|right; reflexivity].
  destruct (IH Hs) as [-> | ->]; [left|right]; reflexivity.
Qed.

(** A line of white space only is not JSON. *)
Lemma blank_line_fails line :
  ToBoolean (JStr (trim line)) = false -> JSON.parse line = None.
Proof.
  cbn [ToBoolean]. intros H. apply negb_false_iff in H.
  apply bool_decide_eq_true in H. apply trim_nil in H.
  unfold JSON.parse. destruct (scan_white_space line H) as [-> | ->];
    reflexivity.
Qed.

Lemma for_lines_all_pieces (chunk : jsstring) c :
  for_lines (lines_of chunk) c = for_lines (split_newline chunk) c.
Proof.
  unfold lines_of. generalize (split_newline chunk) as pieces.
  intros pieces. revert c.
  induction pieces as [|line rest IH]; intros c; [reflexivity|].
  cbn [List.filter for_lines].
  destruct (ToBoolean (JStr (trim line))) eqn:Hkeep.
  - cbn [for_lines]. destruct (on_line line c); [apply IH|reflexivity].
  - unfold on_line. rewrite (blank_line_fails line Hkeep). apply IH.
Qed.

(** The filter on [line.trim()] only spares the parser the blank lines:
    the loop over the filtered lines does what the loop over all the
    pieces of the chunk would do. *)
Theorem blank_filter_is_neutral (chunk : jsstring) c :
  for_lines (lines_of chunk) c = for_lines (split_newline chunk) c.
Proof.
  exact (for_lines_all_pieces chunk c).
Qed.

Lemma json_white_space_cases x :
  json_white_space x = true -> x = 0x20 \/ x = 0x09 \/ x = 0x0A \/ x = 0x0D.
Proof.
  unfold json_white_space. rewrite !orb_true_iff, !N.eqb_eq. tauto.
Qed.

Lemma scan_start_word_without x y toks st :
  json_white_space x = true -> JSON.scan_start y = Some (toks, st) ->
  word_without x st.
Proof.
  intros Hx. unfold JSON.scan_start.
  repeat match goal with
         | |- context [if ?b then _ else _] => destruct b
         end;
    intros [= <- <-]; try exact I;
    destruct (json_white_space_cases x Hx) as [-> | [-> | [-> | ->]]];
    reflexivity.
Qed.

Lemma scan_step_word_without x st y toks st' :
  json_white_space x = true -> word_without x st ->
  JSON.scan_step st y = Some (toks, st') -> word_without x st'.
Proof.
  intros Hx Hst. destruct st as [|acc|acc|acc todo v|rest tok|n];
    cbn [JSON.scan_step].
  - apply scan_start_word_without, Hx.
  - repeat match goal with
           | |- context [if ?b then _ else _] => destruct b
           end; intros [= <- <-] || discriminate; exact I.
  - destruct (y =? 117); [intros [= <- <-]; exact I|].
    destruct (JSON.escape y); [intros [= <- <-]; exact I|discriminate].
  - destruct (JSON.hex_digit y); [|discriminate].
    destruct todo as [|[|todo]]; intros [= <- <-] || discriminate; exact I.
  - cbn [word_without] in Hst.
    destruct rest as [|z [|z' rest]]; [discriminate| |];
      destruct (y =? z); intros [= <- <-] || discriminate; [exact I|].
    cbn [word_without]. cbn [existsb] in Hst.
    apply orb_false_iff in Hst as [_ Hst]. exact Hst.
  - destruct (JSON.number_step n y); [intros [= <- <-]; exact I|].
    destruct (JSON.number_token n); [|discriminate].
    destruct (JSON.scan_start y) as [[toks' st'']|] eqn:Hs; [|discriminate].
    intros [= <- <-]. exact (scan_start_word_without _ _ _ _ Hx Hs).
Qed.

Lemma scan_white_space_last x st :
  json_white_space x = true -> word_without x st ->
  JSON.scan st [x] = JSON.scan st [].
Proof.
  intros Hx Hst.
  destruct st as [|acc|acc|acc todo v|rest tok|n].
  - destruct (json_white_space_cases x Hx) as [-> | [-> | [-> | ->]]];
      reflexivity.
  - destruct (json_white_space_cases x Hx) as [-> | [-> | [-> | ->]]];
      reflexivity.
  - destruct (json_white_space_cases x Hx) as [-> | [-> | [-> | ->]]];
      reflexivity.
  - destruct (json_white_space_cases x Hx) as [-> | [-> | [-> | ->]]];
      reflexivity.
  - cbn [word_without] in Hst. cbn [JSON.scan JSON.scan_step].
    destruct rest as [|z [|z' rest]]; [reflexivity| |];
      cbn [existsb] in Hst; apply orb_false_iff in Hst as [Hz _];
      rewrite Hz; reflexivity.
  - destruct (json_white_space_cases x Hx) as [-> | [-> | [-> | ->]]];
      destruct n; cbn; try reflexivity.
Qed.

Lemma scan_trailing_white_space x s st :
  json_white_space x = true -> word_without x st ->
  JSON.scan st (s ++ [x]) = JSON.scan st s.
Proof.
  intros Hx. revert st. induction s as [|y s IH]; intros st Hst.
  - apply scan_white_space_last; assumption.
  - cbn [app JSON.scan].
    destruct (JSON.scan_step st y) as [[toks st']|] eqn:Hstep; [|reflexivity].
    rewrite (IH st' (scan_step_word_without _ _ _ _ _ Hx Hst Hstep)).
    reflexivity.
Qed.

(** White space of JSON at the end of a line, a carriage return for one,
    does not change what the line does. *)
Lemma on_line_trailing_white_space x line c :
  json_white_space x = true -> on_line (line ++ [x]) c = on_line line c.
Proof.
  intros Hx. unfold on_line, JSON.parse.
  rewrite (scan_trailing_white_space x line JSON.SStart Hx I). reflexivity.
Qed.

Lemma split_newline_body eol_head lines :
  forallb (fun line => negb (existsb (N.eqb 0x0A) (line ++ eol_head))) lines
    = true ->
  split_newline (body_text (eol_head ++ [0x0A]) lines) =
  map (fun line => line ++ eol_head) lines ++ [[]].
Proof.
  induction lines as [|line rest IH]; [reflexivity|].
  cbn [forallb map]. intros H. apply andb_true_iff in H as [Hl Hrest].
  unfold body_text in *. cbn [map concat].
  rewrite app_assoc, <- app_assoc. cbn [app].
  rewrite split_newline_app, (IH Hrest).
  assert (Hone : split_newline (line ++ eol_head) = [line ++ eol_head]).
  { apply split_newline_one. apply List.Forall_forall. intros u Hu ->.
    apply negb_true_iff in Hl.
    assert (Hex : existsb (N.eqb 10) (line ++ eol_head) = true).
    { apply existsb_exists. exists 10. split; [exact Hu | reflexivity]. }
    rewrite Hex in Hl. discriminate. }
  rewrite Hone. reflexivity.
Qed.

(** A response whose lines end with carriage return and line feed is
    handled exactly like the same lines ending with a line feed. *)
Theorem crlf_is_handled_like_lf (lines : list jsstring) c :
  forallb (fun line => negb (existsb (N.eqb 0x0A) line)) lines = true ->
  for_lines (lines_of (body_text [0x0D; 0x0A] lines)) c =
  for_lines (lines_of (body_text [0x0A] lines)) c.
Proof.
  intros Hlines. rewrite !for_lines_all_pieces.
  change (body_text [0x0D; 0x0A] lines)
    with (body_text ([0x0D] ++ [0x0A]) lines).
  change (body_text [0x0A] lines) with (body_text ([] ++ [0x0A]) lines).
  rewrite (split_newline_body [0x0D] lines), (split_newline_body [] lines).
  - revert c. induction lines as [|line rest IH]; intros c; [reflexivity|].
    cbn [forallb] in Hlines. apply andb_true_iff in Hlines as [_ Hrest].
    cbn [map app for_lines]. rewrite app_nil_r.
    rewrite (on_line_trailing_white_space 0x0D line c eq_refl).
    destruct (on_line line c); [apply IH, Hrest|reflexivity].
  - apply List.forallb_forall. intros line Hin.
    rewrite app_nil_r. exact (proj1 (List.forallb_forall _ _) Hlines line Hin).
  - apply List.forallb_forall. intros line Hin.
    rewrite existsb_app. cbn. rewrite !orb_false_r.
    exact (proj1 (List.forallb_forall _ _) Hlines line Hin).
Qed.

Lemma crlf_is_handled_like_lf_witness :
  for_lines
    (lines_of (body_text [0x0D; 0x0A]
                 [text "{'status':'processing'}";
                  text "{'status':'complete','result':{'text':'ok'}}"]))
    initial =
  for_lines
    (lines_of (body_text [0x0A]
                 [text "{'status':'processing'}";
                  text "{'status':'complete','result':{'text':'ok'}}"]))
    initial.
Proof. apply crlf_is_handled_like_lf. reflexivity. Defined.

End BlankLines.

(** * Properties of the page *)

Section HomePage.

Import Home.

Variable eng : Engine.

Implicit Types (w : World) (s : State) (e : event).

Ltac invert_home H :=
  unfold step in H;
  repeat match type of H with
         | (?m ≫= _) = Some _ =>
             let E := fresh "E" in
             destruct m eqn:E; cbn [mbind option_bind] in H;
             [|discriminate H]
         | (if ?b then _ else _) = Some _ =>
             let E := fresh "E" in destruct b eqn:E; try discriminate H
         | match ?x with _ => _ end = Some _ =>
             let E := fresh "E" in destruct x eqn:E; try discriminate H
         end;
  try (injection H as H; subst).

Lemma single_flight_frame w w' :
  single_flight w ->
  isTranscribing (page w') = isTranscribing (page w) ->
  calls w' = calls w -> single_flight w'.
Proof. unfold single_flight. intros Hw -> ->. exact Hw. Qed.

Lemma recording_keeps_calls e w w' :
  step eng e w = Some w' ->
  match e with
  | ClickTranscribeFile | ClickTranscribeRecording | Settled _ _ => True
  | _ => isTranscribing (page w') = isTranscribing (page w) /\
         calls w' = calls w
  end.
Proof.
  intros Hstep. destruct e; try exact I; invert_home Hstep;
    unfold handleFileChange, startRecording_resume, onstop, stopRecording,
      ondataavailable; cbn;
    repeat match goal with
           | |- context [match ?x with _ => _ end] =>
               destruct x eqn:?; cbn
           end;
    split; reflexivity.
Qed.

Lemma single_flight_step e w w' :
  single_flight w -> step eng e w = Some w' -> single_flight w'.
Proof.
  intros Hw Hstep. pose proof (recording_keeps_calls _ _ _ Hstep) as Hframe.
  destruct e;
    try match type of Hframe with
        | _ /\ _ =>
            exact (single_flight_frame _ _ Hw (proj1 Hframe) (proj2 Hframe))
        end.
  - invert_home Hstep. unfold single_flight in *. rewrite E0 in Hw.
    cbn. rewrite Hw, insert_empty. eauto.
  - invert_home Hstep. unfold single_flight in *. rewrite E0 in Hw.
    cbn. rewrite Hw, insert_empty. eauto.
  - invert_home Hstep. unfold single_flight in *.
    destruct (isTranscribing (page w)).
    + destruct Hw as (id' & fd & Hw). rewrite Hw in E.
      apply lookup_singleton_Some in E as [<- _].
      cbn. rewrite Hw, delete_singleton_eq. reflexivity.
    + rewrite Hw, lookup_empty in E. discriminate.
Qed.

Lemma reachable_single_flight key w :
  reachable eng key w -> single_flight w.
Proof.
  induction 1 as [|e w w' _ IH Hstep]; [reflexivity|].
  exact (single_flight_step _ _ _ IH Hstep).
Qed.

(** At most one [transcribeAudio] runs at a time, and [isTranscribing] is
    set exactly while one does: both "Transcribe" buttons stay disabled
    until the running call has ended. *)
Theorem one_transcription_at_a_time key w :
  reachable eng key w ->
  (isTranscribing (page w) = true <-> calls w <> ∅) /\
  (forall i j fi fj,
     calls w !! i = Some fi -> calls w !! j = Some fj -> i = j) /\
  (calls w <> ∅ ->
   step eng ClickTranscribeFile w = None /\
   step eng ClickTranscribeRecording w = None).
Proof.
  intros Hw. pose proof (reachable_single_flight _ _ Hw) as Hs.
  unfold single_flight in Hs.
  destruct (isTranscribing (page w)) eqn:Ht.
  - destruct Hs as (id & fd & Hc). rewrite Hc. repeat split.
    + intros _ H. apply (f_equal (fun m => m !! id)) in H.
      rewrite lookup_singleton_eq, lookup_empty in H. discriminate.
    + intros i j fi fj Hi Hj.
      apply lookup_singleton_Some in Hi as [<- _].
      apply lookup_singleton_Some in Hj as [<- _]. reflexivity.
    + unfold step. rewrite Ht. destruct (file (page w)); reflexivity.
    + unfold step. rewrite Ht. destruct (recordedBlob (page w)); reflexivity.
  - rewrite Hs. repeat split; try congruence.
    intros i j fi fj Hi. rewrite lookup_empty in Hi. discriminate.
Qed.

Lemma flight_step e w w' id fd :
  calls w = {[id := fd]} -> isTranscribing (page w) = true ->
  transcription (page w) = JNull ->
  (forall o, e <> Settled id o) -> step eng e w = Some w' ->
  calls w' = {[id := fd]} /\ isTranscribing (page w') = true /\
  transcription (page w') = JNull.
Proof.
  intros Hc Ht Hx Hne Hstep.
  destruct e; invert_home Hstep; try congruence;
    try (match goal with
         | E : calls _ !! ?i = Some _ |- _ =>
             rewrite Hc in E; apply lookup_singleton_Some in E as [<- _];
             exfalso; exact (Hne _ eq_refl)
         end);
    unfold handleFileChange, startRecording_resume, onstop, stopRecording,
      ondataavailable; cbn;
    repeat match goal with
           | |- context [match ?x with _ => _ end] =>
               destruct x eqn:?; cbn
           end;
    auto.
Qed.

Lemma flight_run es w w' id fd :
  calls w = {[id := fd]} -> isTranscribing (page w) = true ->
  transcription (page w) = JNull ->
  Forall (fun e => forall o, e <> Settled id o) es ->
  run eng es w = Some w' ->
  calls w' = {[id := fd]} /\ isTranscribing (page w') = true /\
  transcription (page w') = JNull.
Proof.
  intros Hc Ht Hx Hes. revert w Hc Ht Hx.
  induction Hes as [|e es He _ IH]; intros w Hc Ht Hx Hrun.
  - injection Hrun as <-. auto.
  - cbn [run] in Hrun. destruct (step eng e w) as [w1|] eqn:Hstep;
      [|discriminate].
    cbn [mbind option_bind] in Hrun.
    destruct (flight_step _ _ _ _ _ Hc Ht Hx He Hstep) as (Hc1 & Ht1 & Hx1).
    exact (IH w1 Hc1 Ht1 Hx1 Hrun).
Qed.

(** A click on "Transcribe" with a file chosen and no call running
    clears the result and the error and sends the file with the
    configuration of the moment.  Whatever else happens on the page
    before the request ends, the call is still the only one, the flag is
    set and no result is held.  However the request then ends, the call
    unsets [isTranscribing]; a successful response sets the result to
    its body and leaves the error field as it stands at that moment,
    everything else leaves no result and sets an error message. *)
Theorem transcription_ends_one_way key w f :
  reachable eng key w ->
  file (page w) = Some f -> isTranscribing (page w) = false ->
  exists w1,
    step eng ClickTranscribeFile w = Some w1 /\
    isTranscribing (page w1) = true /\
    transcription (page w1) = JNull /\ error (page w1) = JNull /\
    calls w1 =
      {[next w := mkFormData (file_blob f) (apiKey (page w))
                    (useApi (page w)) (device (page w))
                    (showTimestamps (page w))]} /\
    forall es w2,
      Forall (fun e => forall o, e <> Settled (next w) o) es ->
      run eng es w1 = Some w2 ->
      calls w2 = calls w1 /\ isTranscribing (page w2) = true /\
      transcription (page w2) = JNull /\
      forall o, exists w3,
        step eng (Settled (next w) o) w2 = Some w3 /\
        isTranscribing (page w3) = false /\ calls w3 = ∅ /\
        match result_of o with
        | Some v =>
            transcription (page w3) = v /\ error (page w3) = error (page w2)
        | None =>
            transcription (page w3) = JNull /\
            exists m, error (page w3) = JStr m
        end.
Proof.
  intros Hreach Hf Ht.
  pose proof (reachable_single_flight _ _ Hreach) as Hsingle.
  unfold single_flight in Hsingle. rewrite Ht in Hsingle.
  exists (transcribeAudio (file_blob f) w). split.
  { unfold step. rewrite Hf. cbn. rewrite Ht. reflexivity. }
  assert (Hc1 : calls (transcribeAudio (file_blob f) w) =
                {[next w := mkFormData (file_blob f) (apiKey (page w))
                              (useApi (page w)) (device (page w))
                              (showTimestamps (page w))]}).
  { unfold transcribeAudio. cbn. rewrite Hsingle, insert_empty.
    reflexivity. }
  do 3 (split; [reflexivity|]). split; [exact Hc1|].
  intros es w2 Hes Hrun.
  destruct (flight_run _ _ _ _ _ Hc1 eq_refl eq_refl Hes Hrun)
    as (Hc2 & Ht2 & Hx2).
  split; [congruence|]. do 2 (split; [assumption|]).
  intros o.
  unfold step. rewrite Hc2, lookup_singleton_eq.
  cbn [mbind option_bind]. eexists. split; [reflexivity|]. cbn.
  rewrite Hc2, delete_singleton_eq.
  split; [reflexivity|]. split; [reflexivity|].
  unfold transcribeAudio_resume, result_of, on_catch.
  destruct o as [err|code [v|err]]; cbn.
  - split; [exact Hx2|]. destruct err; eexists; reflexivity.
  - destruct (response_ok code); cbn; [split; reflexivity|].
    match goal with
    | |- context [match ?g with Some _ => _ | None => _ end] => destruct g
    end; cbn; (split; [exact Hx2|eexists; reflexivity]).
  - destruct (response_ok code); cbn; (split; [exact Hx2|]);
      destruct err; eexists; reflexivity.
Qed.

(** What is shown for a response whose status is outside 200 to 299: the
    [detail] of its body if that is a non-empty string, the fixed message
    if the body has no [detail] or a falsy one, and in each case the
    result is left as it was. *)
Theorem failure_message code errorData s :
  response_ok code = false ->
  let s' := transcribeAudio_resume eng
              (Responded code (BodyValue errorData)) s in
  transcription s' = transcription s /\ isTranscribing s' = false /\
  (forall m, m <> [] -> Get errorData (units "detail") = Some (JStr m) ->
             error s' = JStr m) /\
  (forall d, Get errorData (units "detail") = Some d ->
             ToBoolean d = false ->
             error s' = JStr (units "Failed to transcribe audio")).
Proof.
  intros Hok s'. unfold s', transcribeAudio_resume, on_catch. rewrite Hok.
  repeat split.
  - destruct (Get errorData (units "detail")); reflexivity.
  - intros m Hm ->. cbn.
    destruct (bool_decide (m = [])) eqn:Hd; [|reflexivity].
    apply bool_decide_eq_true in Hd. contradiction.
  - intros d -> ->. reflexivity.
Qed.

Lemma pushed_step e w w' :
  e <> MediaSettled Granted -> step eng e w = Some w' ->
  audioChunksRef (page w') = audioChunksRef (page w) ++ pushed e.
Proof.
  intros Hne Hstep. destruct e; invert_home Hstep;
    unfold handleFileChange, startRecording_resume, onstop, stopRecording,
      transcribeAudio, ondataavailable, pushed; cbn;
    repeat match goal with
           | |- context [match ?x with _ => _ end] =>
               destruct x eqn:?; cbn
           end;
    rewrite ?app_nil_r; try reflexivity; congruence.
Qed.

Lemma pushed_run es w w' :
  Forall (fun e => e <> MediaSettled Granted) es ->
  run eng es w = Some w' ->
  audioChunksRef (page w') = audioChunksRef (page w) ++ captured es.
Proof.
  intros Hes. revert w. induction Hes as [|e es He _ IH]; intros w Hrun.
  - injection Hrun as <-. cbn. rewrite app_nil_r. reflexivity.
  - cbn [run] in Hrun. destruct (step eng e w) as [w1|] eqn:Hstep;
      [|discriminate].
    cbn [mbind option_bind] in Hrun.
    rewrite (IH w1 Hrun), (pushed_step _ _ _ He Hstep).
    unfold captured. cbn [flat_map]. rewrite app_assoc. reflexivity.
Qed.

(** From the granted microphone to the stop event of the recorder, with
    no other recorder started in between, the recording offered for
    playback and for transcription is what the recorder delivered: the
    chunks it pushed, in order, put together, the data of the stop
    included. *)
Theorem recording_is_what_was_captured w w1 es w2 rid data w3 :
  step eng (MediaSettled Granted) w = Some w1 ->
  Forall (fun e => e <> MediaSettled Granted) es ->
  run eng es w1 = Some w2 ->
  step eng (RecorderStopped rid data) w2 = Some w3 ->
  recordedBlob (page w3) =
    Some (concat (captured es ++ pushed (RecorderStopped rid data))) /\
  recordedUrl (page w3) = Some (next w2) /\
  urls w3 !! next w2 = recordedBlob (page w3).
Proof.
  intros H1 Hes Hrun H3.
  assert (Hnil : audioChunksRef (page w1) = []).
  { invert_home H1. reflexivity. }
  pose proof (pushed_run _ _ _ Hes Hrun) as Hgrow. rewrite Hnil in Hgrow.
  cbn [app] in Hgrow.
  assert (Hne : RecorderStopped rid data <> MediaSettled Granted)
    by discriminate.
  pose proof (pushed_step _ _ _ Hne H3) as Hlast. rewrite Hgrow in Hlast.
  invert_home H3. unfold onstop in *. cbn in *.
  rewrite lookup_insert_eq.
  assert (Hd : audioChunksRef (ondataavailable data (page w2)) =
               captured es ++ pushed (RecorderStopped rid data)).
  { rewrite <- Hgrow. destruct data; cbn; rewrite ?app_nil_r; reflexivity. }
  rewrite Hd. repeat split.
Qed.

Lemma players_match_frame w w' :
  players_match w ->
  urls w' = urls w -> (next w <= next w')%nat ->
  file (page w') = file (page w) -> audioUrl (page w') = audioUrl (page w) ->
  recordedBlob (page w') = recordedBlob (page w) ->
  recordedUrl (page w') = recordedUrl (page w) ->
  players_match w'.
Proof.
  intros (Hold & Hfile & Hrec) Hu Hn Hf Ha Hb Hr. unfold players_match.
  rewrite Hu, Hf, Ha, Hb, Hr. split; [|split; assumption].
  intros u b Hub. specialize (Hold u b Hub). lia.
Qed.

Lemma players_match_fresh w b :
  players_match w ->
  (forall u c, <[next w := b]> (urls w) !! u = Some c -> (u < S (next w))%nat)
  /\ (forall u c, urls w !! u = Some c ->
                  <[next w := b]> (urls w) !! u = Some c).
Proof.
  intros (Hold & _). split.
  - intros u c Huc. destruct (decide (u = next w)) as [->|Hne]; [lia|].
    rewrite lookup_insert_ne in Huc by congruence.
    specialize (Hold u c Huc). lia.
  - intros u c Huc. specialize (Hold u c Huc).
    rewrite lookup_insert_ne by lia. exact Huc.
Qed.

Lemma players_match_step e w w' :
  players_match w -> step eng e w = Some w' -> players_match w'.
Proof.
  intros Hw Hstep.
  destruct e; invert_home Hstep;
    try (apply (players_match_frame _ _ Hw); cbn; (reflexivity || lia)).
  - (* ChooseFiles *)
    destruct files as [|selectedFile rest];
      [exact Hw|].
    destruct (players_match_fresh w (file_blob selectedFile) Hw)
      as [Hfresh Hkeep].
    destruct Hw as (_ & _ & Hrec).
    unfold players_match, handleFileChange. cbn.
    split; [exact Hfresh|]. split.
    + eexists. split; [reflexivity|]. apply lookup_insert_eq.
    + destruct (recordedUrl (page w)) as [u|]; [|exact Hrec].
      destruct Hrec as (b & Hb & Hub). exists b. split; [exact Hb|].
      apply Hkeep, Hub.
  - (* MediaSettled *)
    destruct a; apply (players_match_frame _ _ Hw); cbn;
      (reflexivity || lia).
  - (* DataAvailable *)
    apply (players_match_frame _ _ Hw); cbn; try (reflexivity || lia);
      destruct data; reflexivity.
  - (* ClickStop *)
    apply (players_match_frame _ _ Hw); unfold stopRecording;
      destruct (mediaRecorderRef (page w)); try reflexivity;
      destruct (isRecording (page w)); cbn; (reflexivity || lia).
  - (* RecorderStopped *)
    match goal with
    | |- players_match (onstop ?x) => set (w1 := x)
    end.
    assert (Hw1 : players_match w1).
    { apply (players_match_frame _ _ Hw); subst w1; cbn;
        try (reflexivity || lia); destruct data; reflexivity. }
    clearbody w1.
    destruct (players_match_fresh w1 (concat (audioChunksRef (page w1))) Hw1)
      as [Hfresh Hkeep].
    destruct Hw1 as (_ & Hfile & _).
    unfold players_match, onstop. cbn.
    split; [exact Hfresh|]. split.
    + destruct (audioUrl (page w1)) as [u|]; [|exact Hfile].
      destruct Hfile as (f & Hf & Huf). exists f. split; [exact Hf|].
      apply Hkeep, Huf.
    + eexists. split; [reflexivity|]. apply lookup_insert_eq.
  - (* Settled *)
    apply (players_match_frame _ _ Hw); cbn; try (reflexivity || lia);
      unfold transcribeAudio_resume, on_catch;
      destruct o as [err|code [v|err]]; cbn; try reflexivity;
      destruct (response_ok code); cbn; try reflexivity;
      match goal with
      | |- context [match ?g with Some _ => _ | None => _ end] => destruct g
      end; reflexivity.
Qed.

(** In every state of the page each audio player plays what the
    "Transcribe" button beside it sends: the player of the upload tab
    exists exactly when a file is chosen and its URL stands for that
    file, the player of the record tab exists exactly when there is a
    recording and its URL stands for that recording.  No URL is handed
    out twice. *)
Theorem players_play_what_is_sent key w :
  reachable eng key w ->
  (forall u b, urls w !! u = Some b -> (u < next w)%nat) /\
  (file (page w) = None <-> audioUrl (page w) = None) /\
  (forall f u, file (page w) = Some f -> audioUrl (page w) = Some u ->
               urls w !! u = Some (file_blob f)) /\
  (recordedBlob (page w) = None <-> recordedUrl (page w) = None) /\
  (forall b u, recordedBlob (page w) = Some b ->
               recordedUrl (page w) = Some u -> urls w !! u = Some b).
Proof.
  intros Hreach.
  assert (Hinv : players_match w).
  { induction Hreach as [|e w w' _ IH Hstep].
    - repeat split. intros u b Hub. cbn in Hub.
      rewrite lookup_empty in Hub. discriminate.
    - exact (players_match_step _ _ _ IH Hstep). }
  destruct Hinv as (Hold & Hfile & Hrec). split; [exact Hold|].
  destruct (audioUrl (page w)) as [u|], (recordedUrl (page w)) as [u'|];
    try destruct Hfile as (f' & Hf' & Hu);
    try destruct Hrec as (b' & Hb' & Hu');
    repeat split; intros; congruence.
Qed.

Lemma error_is_text o s :
  error s = JNull \/ (exists m, error s = JStr m) ->
  error (transcribeAudio_resume eng o s) = JNull \/
  (exists m, error (transcribeAudio_resume eng o s) = JStr m).
Proof.
  intros Hs. unfold transcribeAudio_resume, on_catch.
  destruct o as [err|code [v|err]]; cbn.
  - right. destruct err; eexists; reflexivity.
  - destruct (response_ok code); cbn; [exact Hs|].
    match goal with
    | |- context [match ?g with Some _ => _ | None => _ end] => destruct g
    end; cbn; right; eexists; reflexivity.
  - destruct (response_ok code); cbn; right; destruct err; eexists;
      reflexivity.
Qed.

(** While a call of [transcribeAudio] is running no results card is
    shown, whatever else happens on the page in the meantime; and the
    error state only ever holds [null] or a string. *)
Theorem results_wait_for_the_answer key w :
  reachable eng key w ->
  (isTranscribing (page w) = true -> shows_results (page w) = false) /\
  (error (page w) = JNull \/ exists m, error (page w) = JStr m).
Proof.
  unfold shows_results.
  induction 1 as [|e w w' _ [IHt IHe] Hstep].
  - split; [discriminate|left; reflexivity].
  - destruct e; invert_home Hstep; cbn.
    + split; assumption.
    + destruct files; cbn; [split; assumption|].
      split; [exact IHt|left; reflexivity].
    + split; assumption.
    + destruct a; cbn; (split; [exact IHt|]);
        [left; reflexivity|right; eexists; reflexivity].
    + split; destruct data; assumption.
    + unfold stopRecording. destruct (mediaRecorderRef (page w));
        [|split; assumption].
      destruct (isRecording (page w)); split; assumption.
    + unfold onstop. cbn. split; destruct data; assumption.
    + split; [reflexivity|left; reflexivity].
    + split; [reflexivity|left; reflexivity].
    + split; [|apply error_is_text, IHe].
      unfold transcribeAudio_resume. cbn. discriminate.
Qed.

Lemma home_run_reachable key es w w' :
  reachable eng key w -> run eng es w = Some w' -> reachable eng key w'.
Proof.
  revert w. induction es as [|e es IH]; intros w Hw Hrun.
  - injection Hrun as <-. exact Hw.
  - cbn [run] in Hrun. destruct (step eng e w) as [w1|] eqn:Hstep;
      [|discriminate].
    exact (IH w1 (reachable_step _ _ e w w1 Hw Hstep) Hrun).
Qed.

End HomePage.

Lemma one_transcription_at_a_time_witness :
  let w := Home.after Home.uploading in
  (Home.isTranscribing (Home.page w) = true <-> Home.calls w <> ∅) /\
  (forall i j fi fj,
      Home.calls w !! i = Some fi -> Home.calls w !! j = Some fj -> i = j) /\
  (Home.calls w <> ∅ ->
   Home.step Home.sample_engine Home.ClickTranscribeFile w = None /\
   Home.step Home.sample_engine Home.ClickTranscribeRecording w = None).
Proof.
  apply (one_transcription_at_a_time Home.sample_engine (units "key")
           (Home.after Home.uploading)).
  apply (home_run_reachable Home.sample_engine (units "key") Home.uploading
           (Home.boot (units "key")));
    [constructor | vm_compute; reflexivity].
Defined.

Lemma transcription_ends_one_way_witness :
  let w := Home.after Home.chosen in
  exists w1,
    Home.step Home.sample_engine Home.ClickTranscribeFile w = Some w1 /\
    Home.isTranscribing (Home.page w1) = true /\
    Home.transcription (Home.page w1) = JNull /\
    Home.error (Home.page w1) = JNull /\
    Home.calls w1 =
      {[Home.next w := mkFormData (Home.file_blob Home.clip)
                         (Home.apiKey (Home.page w))
                         (Home.useApi (Home.page w))
                         (Home.device (Home.page w))
                         (Home.showTimestamps (Home.page w))]} /\
    forall es w2,
      Forall (fun e => forall o, e <> Home.Settled (Home.next w) o) es ->
      Home.run Home.sample_engine es w1 = Some w2 ->
      Home.calls w2 = Home.calls w1 /\
      Home.isTranscribing (Home.page w2) = true /\
      Home.transcription (Home.page w2) = JNull /\
      forall o, exists w3,
        Home.step Home.sample_engine (Home.Settled (Home.next w) o) w2
          = Some w3 /\
        Home.isTranscribing (Home.page w3) = false /\
        Home.calls w3 = ∅ /\
        match Home.result_of o with
        | Some v =>
            Home.transcription (Home.page w3) = v /\
            Home.error (Home.page w3) = Home.error (Home.page w2)
        | None =>
            Home.transcription (Home.page w3) = JNull /\
            exists m, Home.error (Home.page w3) = JStr m
        end.
Proof.
  apply (transcription_ends_one_way Home.sample_engine (units "key")
           (Home.after Home.chosen) Home.clip).
  - apply (home_run_reachable Home.sample_engine (units "key") Home.chosen
             (Home.boot (units "key")));
      [constructor | vm_compute; reflexivity].
  - vm_compute; reflexivity.
  - vm_compute; reflexivity.
Defined.

Lemma failure_message_witness :
  let errorData := JObj [(units "detail", JStr (units "Invalid API key"))] in
  let s := Home.initial (units "key") in
  let s' := Home.transcribeAudio_resume Home.sample_engine
              (Home.Responded 401 (Home.BodyValue errorData)) s in
  Home.transcription s' = Home.transcription s /\
  Home.isTranscribing s' = false /\
  (forall m, m <> [] ->
             Get errorData (units "detail") = Some (JStr m) ->
             Home.error s' = JStr m) /\
  (forall d, Get errorData (units "detail") = Some d ->
             ToBoolean d = false ->
             Home.error s' = JStr (units "Failed to transcribe audio")).
Proof.
  apply (failure_message Home.sample_engine 401). vm_compute; reflexivity.
Defined.

Lemma recording_is_what_was_captured_witness :
  let w2 := Home.after ([Home.ClickStart; Home.MediaSettled Granted]
                          ++ Home.taping) in
  let w3 := Home.after Home.taped in
  Home.recordedBlob (Home.page w3) =
    Some (concat (Home.captured Home.taping
                    ++ Home.pushed (Home.RecorderStopped 0 audio))) /\
  Home.recordedUrl (Home.page w3) = Some (Home.next w2) /\
  Home.urls w3 !! Home.next w2 = Home.recordedBlob (Home.page w3).
Proof.
  apply (recording_is_what_was_captured Home.sample_engine
           (Home.after [Home.ClickStart])
           (Home.after [Home.ClickStart; Home.MediaSettled Granted])
           Home.taping).
  - vm_compute; reflexivity.
  - repeat constructor; discriminate.
  - vm_compute; reflexivity.
  - vm_compute; reflexivity.
Defined.

Lemma players_play_what_is_sent_witness :
  let w := Home.after (Home.taped ++ Home.chosen) in
  (forall u b, Home.urls w !! u = Some b -> (u < Home.next w)%nat) /\
  (Home.file (Home.page w) = None <-> Home.audioUrl (Home.page w) = None) /\
  (forall f u, Home.file (Home.page w) = Some f ->
               Home.audioUrl (Home.page w) = Some u ->
               Home.urls w !! u = Some (Home.file_blob f)) /\
  (Home.recordedBlob (Home.page w) = None <->
   Home.recordedUrl (Home.page w) = None) /\
  (forall b u, Home.recordedBlob (Home.page w) = Some b ->
               Home.recordedUrl (Home.page w) = Some u ->
               Home.urls w !! u = Some b).
Proof.
  apply (players_play_what_is_sent Home.sample_engine (units "key")
           (Home.after (Home.taped ++ Home.chosen))).
  apply (home_run_reachable Home.sample_engine (units "key")
           (Home.taped ++ Home.chosen) (Home.boot (units "key")));
    [constructor | vm_compute; reflexivity].
Defined.

Lemma results_wait_for_the_answer_witness :
  let w := Home.after (Home.taped ++ Home.uploading) in
  (Home.isTranscribing (Home.page w) = true ->
   Home.shows_results (Home.page w) = false) /\
  (Home.error (Home.page w) = JNull \/
   exists m, Home.error (Home.page w) = JStr m).
Proof.
  apply (results_wait_for_the_answer Home.sample_engine (units "key")
           (Home.after (Home.taped ++ Home.uploading))).
  apply (home_run_reachable Home.sample_engine (units "key")
           (Home.taped ++ Home.uploading) (Home.boot (units "key")));
    [constructor | vm_compute; reflexivity].
Defined.
